(** * Rate limiters of [cassiopeia/type/api/rates.py]

  A shallow embedding of [SingleRateLimiter] and [MultiRateLimiter] and the
  properties of their admission, accounting and reset logic.

  The Python objects are records; every region of the source that runs
  under [self.lock], and every single operation on the semaphore, is one
  function on the record.  The methods are then given twice: as the
  sequence of those regions a lone caller goes through (an [option], where
  [None] says that the caller has to block at that moment), and as threads
  whose regions a scheduler interleaves with the timer threads. The
  semaphore is not under the lock: for the token count around a reset the
  scheduler also interleaves the rounds of the loops of [_reset] with the
  semaphore operations of the other threads. *)

From Stdlib Require Import ZArith NArith Lia Bool String.
From stdpp Require Import base list.

Local Open Scope Z_scope.

(** ** Python values and the outcome of a callable *)

Inductive value : Type :=
| PyNone
| PyInt (z : Z)
| PyBool (b : bool)
| PyStr (s : string).

(** What evaluating [method( *args )] gives: a returned value or a raised
  exception (itself a Python object). *)
Inductive outcome : Type :=
| Return (v : value)
| Raise (exc : value).

(** A callable acts on the rest of the program, [Env], and gives an outcome.
  The callables of this embedding do not touch the limiter they are passed
  to; threads that do are covered by the scheduler semantics below. *)
Definition Method (Env : Type) : Type := list value -> Env -> outcome * Env.

(** [method( *args ) if method else None]: the parameter is [None] for an
  absent method (or any object that is false in a boolean context) and
  [Some f] for a callable. *)
Definition apply_method {Env} (method : option (Method Env)) (args : list value)
    (env : Env) : outcome * Env :=
  match method with
  | Some f => f args env
  | None => (Return PyNone, env)
  end.

Definition returned (r : outcome) : bool :=
  match r with Return _ => true | Raise _ => false end.

(** ** threading.Semaphore: the counter *)

Module Semaphore.

Definition t := N.

(** [Semaphore(value)] raises [ValueError] for a negative value. *)
Definition __init__ (value : Z) : option t :=
  if value <? 0 then None else Some (Z.to_N value).

(** [acquire()]: [None] when the counter is zero and the caller blocks. *)
Definition acquire (v : t) : option t :=
  if (0 <? v)%N then Some (N.pred v) else None.

(** [acquire(False)]: never blocks, tells whether a token was taken. *)
Definition try_acquire (v : t) : bool * t :=
  if (0 <? v)%N then (true, N.pred v) else (false, v).

Definition release (v : t) : t := N.succ v.

End Semaphore.

(** ** threading.Timer

  A started timer thread sleeps in [finished.wait(interval)] ([Waiting]);
  [cancel()] sets [finished], which only stops a timer that still sleeps
  ([Cancelled]); a timer whose sleep timed out calls its function
  ([Running], the call may still be queueing for the lock) and is
  [Finished] once the function returned. *)

Inductive timer_status : Type := Waiting | Cancelled | Running | Finished.

Record Timer : Type := mkTimer {
  interval : Z;
  started : Z;
  status : timer_status
}.

Definition with_status (st : timer_status) (t : Timer) : Timer :=
  {| interval := interval t; started := started t; status := st |}.

(** A wait with a timeout that is not positive returns at once. *)
Definition deadline (t : Timer) : Z := started t + Z.max 0 (interval t).

Definition is_waiting (t : Timer) : bool :=
  match status t with Waiting => true | _ => false end.

Definition is_running (t : Timer) : bool :=
  match status t with Running => true | _ => false end.

Definition cancel (t : Timer) : Timer :=
  if is_waiting t then with_status Cancelled t else t.

(** The sleep of [t] has timed out at time [now]. *)
Definition due (now : Z) (t : Timer) : bool :=
  is_waiting t && (deadline t <=? now).

(** ** SingleRateLimiter *)

Module SingleRateLimiter.

(** The attributes of the object (the lock has no state of its own here:
    a region under the lock is one function), and [timers], the Timer
    objects this limiter has started, in the order of their creation;
    [resetter] refers to one of them by its index. *)
Record obj : Type := mkObj {
  seconds_per_epoch : Z;
  semaphore : Semaphore.t;
  current : Z;
  limit : Z;
  resetter : option nat;
  _total_calls : Z;
  _successful_calls : Z;
  timers : list Timer
}.

Definition set_semaphore (v : Semaphore.t) (self : obj) : obj :=
  {| seconds_per_epoch := seconds_per_epoch self; semaphore := v;
     current := current self; limit := limit self;
     resetter := resetter self; _total_calls := _total_calls self;
     _successful_calls := _successful_calls self; timers := timers self |}.

Definition set_current (v : Z) (self : obj) : obj :=
  {| seconds_per_epoch := seconds_per_epoch self; semaphore := semaphore self;
     current := v; limit := limit self;
     resetter := resetter self; _total_calls := _total_calls self;
     _successful_calls := _successful_calls self; timers := timers self |}.

Definition set_resetter (v : option nat) (self : obj) : obj :=
  {| seconds_per_epoch := seconds_per_epoch self; semaphore := semaphore self;
     current := current self; limit := limit self;
     resetter := v; _total_calls := _total_calls self;
     _successful_calls := _successful_calls self; timers := timers self |}.

Definition set_total_calls (v : Z) (self : obj) : obj :=
  {| seconds_per_epoch := seconds_per_epoch self; semaphore := semaphore self;
     current := current self; limit := limit self;
     resetter := resetter self; _total_calls := v;
     _successful_calls := _successful_calls self; timers := timers self |}.

Definition set_successful_calls (v : Z) (self : obj) : obj :=
  {| seconds_per_epoch := seconds_per_epoch self; semaphore := semaphore self;
     current := current self; limit := limit self;
     resetter := resetter self; _total_calls := _total_calls self;
     _successful_calls := v; timers := timers self |}.

Definition set_timers (v : list Timer) (self : obj) : obj :=
  {| seconds_per_epoch := seconds_per_epoch self; semaphore := semaphore self;
     current := current self; limit := limit self;
     resetter := resetter self; _total_calls := _total_calls self;
     _successful_calls := _successful_calls self; timers := v |}.

Definition __init__ (calls_per_epoch seconds_per_epoch : Z) : option obj :=
  match Semaphore.__init__ calls_per_epoch with
  | None => None
  | Some sem =>
      Some {| seconds_per_epoch := seconds_per_epoch;
              semaphore := sem;
              current := 0;
              limit := calls_per_epoch;
              resetter := None;
              _total_calls := 0;
              _successful_calls := 0;
              timers := [] |}
  end.

(** [threading.Timer(seconds, self._reset)], [daemon = True], [start()]:
    the new timer is stored and [self.resetter] refers to it. *)
Definition start_resetter (now seconds : Z) (self : obj) : obj :=
  set_resetter (Some (length (timers self)))
    (set_timers (timers self ++ [mkTimer seconds now Waiting]) self).

(** Line 30, [self.semaphore.acquire()]. *)
Definition call_acquire (self : obj) : option obj :=
  match Semaphore.acquire (semaphore self) with
  | Some v => Some (set_semaphore v self)
  | None => None
  end.

(** Lines 33-34, [with self.lock: self.current += 1]. *)
Definition call_enter (self : obj) : obj :=
  set_current (current self + 1) self.

(** Lines 44-53, the [finally] block. [if not self.resetter] tests the
    reference: a Timer object is always true. *)
Definition call_finally (now : Z) (successful_call : bool) (self : obj) : obj :=
  let self :=
    match resetter self with
    | None => start_resetter now (seconds_per_epoch self) self
    | Some _ => self
    end in
  let self := set_current (current self - 1) self in
  let self := set_total_calls (_total_calls self + 1) self in
  if successful_call
  then set_successful_calls (_successful_calls self + 1) self
  else self.

(** [call(method, *args)] of a caller that is alone with the limiter, at
    time [now]: [None] when it blocks on the semaphore; otherwise what the
    caller gets (the value returned, or the exception that leaves the
    [try] statement after the [finally] block) and the new states. *)
Definition call {Env} (now : Z) (method : option (Method Env))
    (args : list value) (env : Env) (self : obj) : option (outcome * Env * obj) :=
  match call_acquire self with
  | None => None
  | Some self =>
      let self := call_enter self in
      let '(r, env) := apply_method method args env in
      let successful_call := returned r in
      Some (r, env, call_finally now successful_call self)
  end.

(** [_drain]: [while self.semaphore.acquire(False): pass]. The loop runs
    at most once per token, so the counter itself is enough fuel. *)
Fixpoint _drain_loop (fuel : nat) (v : Semaphore.t) : Semaphore.t :=
  match fuel with
  | O => v
  | S fuel =>
      match Semaphore.try_acquire v with
      | (true, v) => _drain_loop fuel v
      | (false, v) => v
      end
  end.

Definition _drain (self : obj) : obj :=
  set_semaphore (_drain_loop (N.to_nat (semaphore self)) (semaphore self)) self.

(** [for _ in range(n): self.semaphore.release()]; an empty range for
    [n <= 0]. *)
Definition release_n (n : Z) (self : obj) : obj :=
  set_semaphore (Nat.iter (Z.to_nat n) Semaphore.release (semaphore self)) self.

(** [_reset], lines 62-69, all of it under the lock. *)
Definition _reset (self : obj) : obj :=
  let self := _drain self in
  let self := release_n (limit self - current self) self in
  set_resetter None self.

(** [wait]: line 73 and line 74. *)
Definition wait_acquire (self : obj) : option obj := call_acquire self.

Definition wait_release (self : obj) : obj :=
  set_semaphore (Semaphore.release (semaphore self)) self.

Definition wait (self : obj) : option obj :=
  match wait_acquire self with
  | None => None
  | Some self => Some (wait_release self)
  end.

(** [self.resetter.cancel()] on the timer [self.resetter] refers to. *)
Definition cancel_resetter (self : obj) : obj :=
  match resetter self with
  | Some i => set_timers (alter cancel i (timers self)) self
  | None => self
  end.

(** [reset_in(seconds)], lines 81-89, all of it under the lock. *)
Definition reset_in (now seconds : Z) (self : obj) : obj :=
  let self := cancel_resetter self in
  let self := _drain self in
  start_resetter now seconds self.

Definition _decrease_successful_calls (self : obj) : obj :=
  set_successful_calls (_successful_calls self - 1) self.

(** The property [calls]. *)
Definition calls (self : obj) : Z * Z :=
  (_successful_calls self, _total_calls self).

(** *** The timer threads of the limiter *)

(** The sleep of timer [i] times out: it is no longer stopped by
    [cancel()] and goes on to call [self._reset]. *)
Definition timer_expire (now : Z) (i : nat) (self : obj) : option obj :=
  match timers self !! i with
  | Some t =>
      if due now t
      then Some (set_timers (<[i := with_status Running t]> (timers self)) self)
      else None
  | None => None
  end.

(** Timer [i] gets the lock and runs [_reset]. *)
Definition timer_run (i : nat) (self : obj) : option obj :=
  match timers self !! i with
  | Some t =>
      if is_running t
      then Some (_reset (set_timers (<[i := with_status Finished t]> (timers self)) self))
      else None
  | None => None
  end.

(** A timer that nothing delays: time-out and [_reset] in one go. *)
Definition timer_fire (now : Z) (i : nat) (self : obj) : obj :=
  match timer_expire now i self with
  | Some self' => default self' (timer_run i self')
  | None => self
  end.

(** Time has come to [now] with the caller idle: every timer that is due
    fires, in the order of creation (the order has no influence: every
  one of them runs [_reset] on the same counters). *)
Definition advance (now : Z) (self : obj) : obj :=
  foldl (fun self i => timer_fire now i self) self (seq 0 (length (timers self))).

End SingleRateLimiter.

(** ** MultiRateLimiter *)

Module MultiRateLimiter.

(** The object is its attribute [limits]; the members are separate objects,
    each created by the constructor. *)
Definition obj : Type := list SingleRateLimiter.obj.

Fixpoint __init__ (limits : list (Z * Z)) : option obj :=
  match limits with
  | [] => Some []
  | limit :: limits =>
      match SingleRateLimiter.__init__ (fst limit) (snd limit) with
      | None => None
      | Some l =>
          match __init__ limits with
          | None => None
          | Some ls => Some (l :: ls)
          end
      end
  end.

(** [wait], lines 142-143. *)
Fixpoint wait (self : obj) : option obj :=
  match self with
  | [] => Some []
  | limit :: limits =>
      match SingleRateLimiter.wait limit with
      | None => None
      | Some limit =>
          match wait limits with
          | None => None
          | Some limits => Some (limit :: limits)
          end
      end
  end.

(** One round of the loop of lines 134-138: [limit.call()], then
    [limit._decrease_successful_calls()] unless the call was successful. *)
Definition count_call (now : Z) (successful_call : bool)
    (limit : SingleRateLimiter.obj) : option SingleRateLimiter.obj :=
  match SingleRateLimiter.call now None [] tt limit with
  | None => None
  | Some (_, _, limit) =>
      Some (if successful_call then limit
            else SingleRateLimiter._decrease_successful_calls limit)
  end.

Fixpoint call_finally (now : Z) (successful_call : bool) (self : obj) : option obj :=
  match self with
  | [] => Some []
  | limit :: limits =>
      match count_call now successful_call limit with
      | None => None
      | Some limit =>
          match call_finally now successful_call limits with
          | None => None
          | Some limits => Some (limit :: limits)
          end
      end
  end.

(** [call(method, *args)] of a caller that is alone with the limiter. *)
Definition call {Env} (now : Z) (method : option (Method Env))
    (args : list value) (env : Env) (self : obj) : option (outcome * Env * obj) :=
  match wait self with
  | None => None
  | Some self =>
      let '(r, env) := apply_method method args env in
      let successful_call := returned r in
      match call_finally now successful_call self with
      | None => None
      | Some self => Some (r, env, self)
      end
  end.

(** Where [call] gets to. It can block in two places: in [self.wait()] on
    line 125, before the method is run, and in a [limit.call()] of the
    [finally] loop on line 136, after it. [call] above is [None] in both
    cases; here they are told apart. *)
Inductive progress (Env : Type) : Type :=
| Completed (r : outcome) (env : Env) (self : obj)
| BlockedInWait
| BlockedInFinally (r : outcome) (env : Env) (self : obj).

Arguments Completed {Env} r env self.
Arguments BlockedInWait {Env}.
Arguments BlockedInFinally {Env} r env self.

(** The loop of lines 134-138 as far as it gets: the members with those
    before the first one that blocks updated, and whether the loop came to
    its end. *)
Fixpoint call_finally_upto (now : Z) (successful_call : bool) (self : obj)
    : obj * bool :=
  match self with
  | [] => ([], true)
  | limit :: limits =>
      match count_call now successful_call limit with
      | None => (limit :: limits, false)
      | Some limit =>
          let '(limits, finished) := call_finally_upto now successful_call limits in
          (limit :: limits, finished)
      end
  end.

Definition call_progress {Env} (now : Z) (method : option (Method Env))
    (args : list value) (env : Env) (self : obj) : progress Env :=
  match wait self with
  | None => BlockedInWait
  | Some self =>
      let '(r, env) := apply_method method args env in
      let successful_call := returned r in
      match call_finally_upto now successful_call self with
      | (self, true) => Completed r env self
      | (self, false) => BlockedInFinally r env self
      end
  end.

Definition reset_in (now seconds : Z) (self : obj) : obj :=
  map (SingleRateLimiter.reset_in now seconds) self.

(** What the property [calls] evaluates to: a tuple, or the integer of the
    [except IndexError] branch. *)
Inductive calls_value : Type :=
| CallsTuple (successful total : Z)
| CallsInt (n : Z).

Definition calls (self : obj) : calls_value :=
  match self !! 0%nat with
  | Some limit =>
      let '(successful, total) := SingleRateLimiter.calls limit in
      CallsTuple successful total
  | None => CallsInt 0
  end.

End MultiRateLimiter.

(** ** A caller that is alone with the limiter *)

Definition request (Env : Type) : Type := option (Method Env) * list value.

(** The requests are made one after the other at time [now]; an exception
    raised by one of them is caught by the caller, who goes on. [None] when
    one of the calls blocks. *)
Fixpoint single_calls {Env} (now : Z) (reqs : list (request Env)) (env : Env)
    (self : SingleRateLimiter.obj)
    : option (list outcome * Env * SingleRateLimiter.obj) :=
  match reqs with
  | [] => Some ([], env, self)
  | (method, args) :: reqs =>
      match SingleRateLimiter.call now method args env self with
      | None => None
      | Some (r, env, self) =>
          match single_calls now reqs env self with
          | None => None
          | Some (rs, env, self) => Some (r :: rs, env, self)
          end
      end
  end.

(** How many of the requests are served before one of them blocks. *)
Fixpoint multi_admitted {Env} (now : Z) (reqs : list (request Env)) (env : Env)
    (self : MultiRateLimiter.obj) : nat :=
  match reqs with
  | [] => 0%nat
  | (method, args) :: reqs =>
      match MultiRateLimiter.call now method args env self with
      | None => 0%nat
      | Some (_, env, self) => S (multi_admitted now reqs env self)
      end
  end.

(** How many of the requests have their method run before the caller
    blocks: a call that blocks in the [finally] loop has run its method, a
    call that blocks in [wait] has not. *)
Fixpoint multi_operations_run {Env} (now : Z) (reqs : list (request Env)) (env : Env)
    (self : MultiRateLimiter.obj) : nat :=
  match reqs with
  | [] => 0%nat
  | (method, args) :: reqs =>
      match MultiRateLimiter.call_progress now method args env self with
      | MultiRateLimiter.Completed _ env self =>
          S (multi_operations_run now reqs env self)
      | MultiRateLimiter.BlockedInWait => 0%nat
      | MultiRateLimiter.BlockedInFinally _ _ _ => 1%nat
      end
  end.

(** ** Threads

    A thread is the list of the regions it still has to run; the code of a
    method is the list of its regions in the order of the source: line 30,
    lines 33-34 and lines 44-53 of [call] (the method runs between the last
    two, and all that matters of it here is whether it raises), lines 73
    and 74 of [wait], lines 81-89 of [reset_in]. *)

Inductive action : Type :=
| Acquire
| Enter
| Finally (successful_call : bool)
| WaitAcquire
| WaitRelease
| ResetIn (seconds : Z).

Definition act (now : Z) (a : action) (self : SingleRateLimiter.obj)
    : option SingleRateLimiter.obj :=
  match a with
  | Acquire => SingleRateLimiter.call_acquire self
  | Enter => Some (SingleRateLimiter.call_enter self)
  | Finally ok => Some (SingleRateLimiter.call_finally now ok self)
  | WaitAcquire => SingleRateLimiter.wait_acquire self
  | WaitRelease => Some (SingleRateLimiter.wait_release self)
  | ResetIn seconds => Some (SingleRateLimiter.reset_in now seconds self)
  end.

(** What a thread asks of the limiter: [call] with a method that raises or
    not, [wait], [reset_in]. *)
Inductive invocation : Type :=
| DoCall (raises : bool)
| DoWait
| DoResetIn (seconds : Z).

Definition code (i : invocation) : list action :=
  match i with
  | DoCall raises => [Acquire; Enter; Finally (negb raises)]
  | DoWait => [WaitAcquire; WaitRelease]
  | DoResetIn seconds => [ResetIn seconds]
  end.

Definition program (ivs : list invocation) : list action := concat (map code ivs).

Record config : Type := mkConfig {
  clock : Z;
  limiter : SingleRateLimiter.obj;
  threads : list (list action)
}.

(** What the scheduler can do next: let a thread run its next region (it
    cannot when that region blocks), let time pass, let the sleep of a timer
    time out, let a timer that timed out run [_reset]. Time does not pass
    beyond the deadline of a timer that still sleeps. *)
Inductive choice : Type :=
| Step (thread : nat)
| Elapse (d : Z)
| Expire (timer : nat)
| RunReset (timer : nat).

Definition on_time (now : Z) (t : Timer) : bool :=
  negb (is_waiting t) || (now <=? deadline t).

Definition sched (c : choice) (cfg : config) : option config :=
  match c with
  | Step i =>
      match threads cfg !! i with
      | Some (a :: rest) =>
          match act (clock cfg) a (limiter cfg) with
          | Some l => Some (mkConfig (clock cfg) l (<[i := rest]> (threads cfg)))
          | None => None
          end
      | _ => None
      end
  | Elapse d =>
      if (0 <=? d) && forallb (on_time (clock cfg + d)) (SingleRateLimiter.timers (limiter cfg))
      then Some (mkConfig (clock cfg + d) (limiter cfg) (threads cfg))
      else None
  | Expire i =>
      match SingleRateLimiter.timer_expire (clock cfg) i (limiter cfg) with
      | Some l => Some (mkConfig (clock cfg) l (threads cfg))
      | None => None
      end
  | RunReset i =>
      match SingleRateLimiter.timer_run i (limiter cfg) with
      | Some l => Some (mkConfig (clock cfg) l (threads cfg))
      | None => None
      end
  end.

Fixpoint run (cs : list choice) (cfg : config) : option config :=
  match cs with
  | [] => Some cfg
  | c :: cs =>
      match sched c cfg with
      | Some cfg => run cs cfg
      | None => None
      end
  end.

(** The threads start with the whole code of their invocations. *)
Definition boot (now : Z) (l : SingleRateLimiter.obj) (iss : list (list invocation)) : config :=
  mkConfig now l (map program iss).

Definition all_done (cfg : config) : Prop := Forall (fun th => th = []) (threads cfg).

(** The number of [call] invocations, and of those whose method raises. *)
Definition is_call (i : invocation) : bool :=
  match i with DoCall _ => true | _ => false end.

Definition is_failing_call (i : invocation) : bool :=
  match i with DoCall true => true | _ => false end.

Fixpoint tally {A} (p : A -> bool) (l : list A) : Z :=
  match l with
  | [] => 0
  | x :: l => (if p x then 1 else 0) + tally p l
  end.

Definition count_where (p : invocation -> bool) (iss : list (list invocation)) : Z :=
  tally p (concat iss).

Import SingleRateLimiter.

(** ** Predicates and counts used in the statements *)

(** The semaphore has a token: [acquire()] does not block. *)
Definition has_token (self : obj) : Prop := (0 < semaphore self)%N.

(** What one round of the composite's [finally] loop makes of a member that
    has a token. *)
Definition counted (now : Z) (successful_call : bool) (l : obj) : obj :=
  let l' := call_finally now true (call_enter (set_semaphore (N.pred (semaphore l)) l)) in
  if successful_call then l' else _decrease_successful_calls l'.

(** Requests made of the composite limiter one after the other, as
    [single_calls]. *)
Fixpoint multi_calls {Env} (now : Z) (reqs : list (request Env)) (env : Env)
    (self : MultiRateLimiter.obj)
    : option (list outcome * Env * MultiRateLimiter.obj) :=
  match reqs with
  | [] => Some ([], env, self)
  | (method, args) :: reqs =>
      match MultiRateLimiter.call now method args env self with
      | None => None
      | Some (r, env, self) =>
          match multi_calls now reqs env self with
          | None => None
          | Some (rs, env, self) => Some (r :: rs, env, self)
          end
      end
  end.

(** The limiter made with capacity [C] and epoch [E] after [n] calls made
    one after the other at time [now]: the first of them has started the
    timer, which still sleeps. *)
Definition in_first_epoch (C E now : Z) (n : nat) (self : obj) : Prop :=
  seconds_per_epoch self = E /\
  semaphore self = Z.to_N (C - Z.of_nat n) /\
  current self = 0 /\
  limit self = C /\
  resetter self = match n with O => None | S _ => Some 0%nat end /\
  timers self = match n with O => [] | S _ => [mkTimer E now Waiting] end.

(** The regions that count a call, and those that count it as successful. *)
Definition is_finally (a : action) : bool :=
  match a with Finally _ => true | _ => false end.

Definition is_finally_ok (a : action) : bool :=
  match a with Finally true => true | _ => false end.

Definition is_passing_call (i : invocation) : bool :=
  match i with DoCall false => true | _ => false end.

(** The timers that still sleep, and those that have run [_reset]. *)
Definition timers_where (p : Timer -> bool) (self : obj) : list nat :=
  List.filter (fun i => match timers self !! i with
                        | Some t => p t
                        | None => false
                        end)
              (seq 0 (length (timers self))).

Definition is_finished (t : Timer) : bool :=
  match status t with Finished => true | _ => false end.

Definition pending (self : obj) : list nat := timers_where is_waiting self.

Definition fired (self : obj) : list nat := timers_where is_finished self.

Definition clock_and_timers (cfg : option config) : option (Z * list nat * list nat) :=
  match cfg with
  | Some cfg => Some (clock cfg, pending (limiter cfg), fired (limiter cfg))
  | None => None
  end.

(** No timer is between its time-out and its [_reset], and the timers that
    sleep all satisfy [P]. *)
Definition sleepers_are (P : nat -> Prop) (self : obj) : Prop :=
  forall i t, timers self !! i = Some t ->
    is_running t = false /\ (is_waiting t = true -> P i).

(** A timer that sleeps is the one [resetter] refers to. *)
Definition tidy (self : obj) : Prop :=
  sleepers_are (fun i => resetter self = Some i) self.

Definition quiet (self : obj) : Prop := sleepers_are (fun _ => False) self.

(** ** Sample objects, methods and schedules *)

Definition limiter_1_10 : obj :=
  {| seconds_per_epoch := 10; semaphore := 1%N; current := 0; limit := 1;
     resetter := None; _total_calls := 0; _successful_calls := 0; timers := [] |}.

Definition limiter_2_10 : obj :=
  {| seconds_per_epoch := 10; semaphore := 2%N; current := 0; limit := 2;
     resetter := None; _total_calls := 0; _successful_calls := 0; timers := [] |}.

Definition drained_2_10 : obj :=
  {| seconds_per_epoch := 10; semaphore := 0%N; current := 0; limit := 2;
     resetter := Some 0%nat; _total_calls := 2; _successful_calls := 2;
     timers := [mkTimer 10 0 Waiting] |}.

Definition one_in_flight : obj :=
  {| seconds_per_epoch := 10; semaphore := 4%N; current := 1; limit := 3;
     resetter := Some 0%nat; _total_calls := 5; _successful_calls := 4;
     timers := [mkTimer 10 0 Running] |}.

Definition limits_2_5 : MultiRateLimiter.obj :=
  [{| seconds_per_epoch := 1; semaphore := 2%N; current := 0; limit := 2;
      resetter := None; _total_calls := 0; _successful_calls := 0; timers := [] |};
   {| seconds_per_epoch := 120; semaphore := 5%N; current := 0; limit := 5;
      resetter := None; _total_calls := 0; _successful_calls := 0; timers := [] |}].

Definition failing : Method unit := fun _ env => (Raise (PyStr "APIError"), env).

Definition echo : Method unit :=
  fun args env => (Return (List.hd PyNone args), env).

(** A method that counts its invocations in the environment and returns
    its first argument. *)
Definition counting : Method Z :=
  fun args n => (Return (List.hd PyNone args), n + 1).

Definition three_counting : list (request Z) :=
  [(Some counting, [PyInt 1]); (Some counting, [PyInt 2]); (Some counting, [PyInt 3])].

Definition two_requests : list (request unit) :=
  [(Some echo, [PyInt 1]); (Some failing, [])].

Definition three_requests : list (request unit) :=
  [(Some echo, [PyInt 1]); (Some failing, []); (None, [])].

(** More calls in flight than the capacity. Thread 0 has taken the only
    token and has not yet counted itself in [current] when a reset runs,
    which therefore hands out the token again; thread 1 takes it. Thread 2
    asks for the two resets with [reset_in(0)]. *)
Definition overbooking : list choice :=
  [Step 0; Step 2; Expire 0; RunReset 0; Step 0; Step 1; Step 1; Step 2; Expire 1].

Definition overbooked : obj :=
  {| seconds_per_epoch := 10; semaphore := 0%N; current := 2; limit := 1;
     resetter := Some 1%nat; _total_calls := 0; _successful_calls := 0;
     timers := [mkTimer 0 0 Finished; mkTimer 0 0 Running] |}.

(** A reset that is rescheduled while the timer of the epoch is on its way
    to the lock. Thread 0 completes a call at time 0, which starts timer 0
    for the epoch of 10 seconds. At time 10 the sleep of timer 0 times out;
    before it gets the lock, thread 1 runs [reset_in(5)]: the [cancel()]
    comes too late for timer 0, and timer 1 is started. Timer 0 then runs
    [_reset], which refills the tokens and clears [resetter], so that the
    call of thread 2 starts timer 2. *)
Definition four_threads : list (list invocation) :=
  [[DoCall false]; [DoResetIn 5]; [DoCall false]; [DoResetIn 20; DoResetIn 30]].

Definition late_cancel : list choice :=
  [Step 0; Step 0; Step 0; Elapse 10; Expire 0; Step 1; RunReset 0;
   Step 2; Step 2; Step 2].

(** Thread 3 now runs [reset_in(20)] at time 10 and [reset_in(30)] at time
    12, before the 20 seconds have elapsed. *)
Definition reset_twice : list choice := [Step 3; Elapse 2; Step 3].

(** Time passes; the timers run when their sleep times out. *)
Definition first_reset : list choice := [Elapse 3; Expire 1; RunReset 1].

Definition second_reset : list choice := [Elapse 27; Expire 4; RunReset 4].

(** ** Further predicates and counts *)

(** The member that the constructor makes of one limit
    [(calls_per_epoch, seconds_per_epoch)]. *)
Definition fresh (l : Z * Z) : obj :=
  {| seconds_per_epoch := snd l; semaphore := Z.to_N (fst l); current := 0;
     limit := fst l; resetter := None; _total_calls := 0;
     _successful_calls := 0; timers := [] |}.

Definition raised (r : outcome) : bool := negb (returned r).

Definition is_acquire (a : action) : bool :=
  match a with Acquire => true | _ => false end.

Definition is_enter (a : action) : bool :=
  match a with Enter => true | _ => false end.

Definition is_wait_acquire (a : action) : bool :=
  match a with WaitAcquire => true | _ => false end.

Definition is_wait_release (a : action) : bool :=
  match a with WaitRelease => true | _ => false end.

Definition is_reset_in (i : invocation) : bool :=
  match i with DoResetIn _ => true | _ => false end.

Definition is_reset_in_action (a : action) : bool :=
  match a with ResetIn _ => true | _ => false end.

Definition no_reset_in_action (th : list action) : Prop :=
  Forall (fun a => is_reset_in_action a = false) th.

(** The calls of the invocations [iss] that have got their token: those
    whose line 30 is no longer among the regions to run. *)
Definition admitted (iss : list (list invocation)) (cfg : config) : Z :=
  count_where is_call iss - tally is_acquire (concat (threads cfg)).

(** The [wait] invocations that hold a token, between line 73 and line 74. *)
Definition probing (cfg : config) : Z :=
  tally is_wait_release (concat (threads cfg))
  - tally is_wait_acquire (concat (threads cfg)).

Definition is_run_reset (c : choice) : bool :=
  match c with RunReset _ => true | _ => false end.

(** What is left of the code of an invocation that a thread is in the
    middle of: nothing, or the rest of [call] after line 30 or after line
    34, or the rest of [wait] after line 73. *)
Inductive midway : list action -> Prop :=
| midway_none : midway []
| midway_acquired ok : midway [Enter; Finally ok]
| midway_entered ok : midway [Finally ok]
| midway_waiting : midway [WaitRelease].

(** A thread that runs the code of its invocations in order. *)
Definition in_order (th : list action) : Prop :=
  exists r ivs, midway r /\ th = r ++ program ivs.

(** The smallest number of tokens among the members [l :: ls]. *)
Fixpoint fewest_tokens (l : obj) (ls : list obj) : N :=
  match ls with
  | [] => semaphore l
  | l' :: ls' => N.min (semaphore l) (fewest_tokens l' ls')
  end.

(** The smallest of the capacities [c :: cs]. *)
Fixpoint smallest (c : Z) (cs : list Z) : Z :=
  match cs with
  | [] => c
  | c' :: cs' => Z.min c (smallest c' cs')
  end.

(** A thread that is not in the middle of an invocation. *)
Definition not_begun (th : list action) : Prop := exists ivs, th = program ivs.

(** A limiter without capacity on which nothing has been counted. *)
Definition shut (self : obj) : Prop :=
  semaphore self = 0%N /\ limit self = 0 /\ current self = 0 /\ calls self = (0, 0).

(** A schedule in which every timer runs [_reset] as soon as its sleep has
    timed out. *)
Fixpoint prompt (cs : list choice) : bool :=
  match cs with
  | [] => true
  | Expire i :: cs' =>
      match cs' with
      | RunReset j :: cs'' => Nat.eqb i j && prompt cs''
      | _ => false
      end
  | RunReset _ :: _ => false
  | _ :: cs' => prompt cs'
  end.

Definition limiter_0_10 : obj :=
  {| seconds_per_epoch := 10; semaphore := 0%N; current := 0; limit := 0;
     resetter := None; _total_calls := 0; _successful_calls := 0; timers := [] |}.

(** A limiter of capacity 3 on which one call has completed at time 0. *)
Definition one_call_made : obj :=
  {| seconds_per_epoch := 10; semaphore := 2%N; current := 0; limit := 3;
     resetter := Some 0%nat; _total_calls := 1; _successful_calls := 1;
     timers := [mkTimer 10 0 Waiting] |}.

(** ** The reset, round by round

    [_reset] holds [self.lock] from line 62 to line 69, but the semaphore is
    not under that lock: while a timer is in [_reset], other threads can
    take a token on line 30 or line 73 and give one back on line 74. The
    regions under the lock (lines 33-34, 44-53, 81-89) have to wait. Here
    the scheduler can interleave the rounds of the two loops of [_reset]
    with the other threads. *)

(** Where the timer that is in [_reset] has got to: the loop of [_drain]
    (line 57), or the loop of lines 65-66 with [n] rounds to go; the number
    of rounds, [range(self.limit - self.current)], is fixed when that loop
    starts. *)
Inductive reset_pc : Type :=
| Draining
| Refilling (n : nat).

(** [resetting] is the timer that holds the lock in [_reset], if any. *)
Record fine_config : Type := mkFine {
  base : config;
  resetting : option (nat * reset_pc)
}.

Definition needs_lock (a : action) : bool :=
  match a with
  | Enter | Finally _ | ResetIn _ => true
  | Acquire | WaitAcquire | WaitRelease => false
  end.

Definition with_limiter (l : obj) (cfg : config) : config :=
  mkConfig (clock cfg) l (threads cfg).

(** A step as before ([Coarse], but a timer no longer runs [_reset] in one
    step), or one of the steps of [_reset]: line 62, one round of line 57,
    one round of line 66, lines 67-69. *)
Inductive fine_choice : Type :=
| Coarse (c : choice)
| ResetBegin (timer : nat)
| DrainOnce
| ReleaseOnce
| ResetEnd.

Definition lift (resetting : option (nat * reset_pc)) (cfg : option config)
    : option fine_config :=
  match cfg with
  | Some cfg => Some (mkFine cfg resetting)
  | None => None
  end.

Definition fine_sched (c : fine_choice) (cfg : fine_config) : option fine_config :=
  let l := limiter (base cfg) in
  match c with
  | Coarse (RunReset _) => None
  | Coarse (Step i) =>
      match resetting cfg, threads (base cfg) !! i with
      | Some _, Some (a :: _) =>
          if needs_lock a then None
          else lift (resetting cfg) (sched (Step i) (base cfg))
      | _, _ => lift (resetting cfg) (sched (Step i) (base cfg))
      end
  | Coarse c => lift (resetting cfg) (sched c (base cfg))
  | ResetBegin i =>
      match resetting cfg, timers l !! i with
      | None, Some t =>
          if is_running t then Some (mkFine (base cfg) (Some (i, Draining))) else None
      | _, _ => None
      end
  | DrainOnce =>
      match resetting cfg with
      | Some (i, Draining) =>
          match Semaphore.try_acquire (semaphore l) with
          | (true, v) =>
              Some (mkFine (with_limiter (set_semaphore v l) (base cfg))
                           (Some (i, Draining)))
          | (false, _) =>
              Some (mkFine (base cfg)
                           (Some (i, Refilling (Z.to_nat (limit l - current l)))))
          end
      | _ => None
      end
  | ReleaseOnce =>
      match resetting cfg with
      | Some (i, Refilling (S n)) =>
          Some (mkFine (with_limiter
                          (set_semaphore (Semaphore.release (semaphore l)) l)
                          (base cfg))
                       (Some (i, Refilling n)))
      | _ => None
      end
  | ResetEnd =>
      match resetting cfg with
      | Some (i, Refilling O) =>
          match timers l !! i with
          | Some t =>
              Some (mkFine (with_limiter
                              (set_resetter None
                                 (set_timers (<[i := with_status Finished t]> (timers l)) l))
                              (base cfg))
                           None)
          | None => None
          end
      | _ => None
      end
  end.

Fixpoint fine_run (cs : list fine_choice) (cfg : fine_config) : option fine_config :=
  match cs with
  | [] => Some cfg
  | c :: cs =>
      match fine_sched c cfg with
      | Some cfg => fine_run cs cfg
      | None => None
      end
  end.

(** The steps of a [_reset] of timer [i] that no other thread comes
    between: one round of the first loop for every token and one to find
    that there is none left, then the rounds of the second loop. *)
Definition reset_steps (l : obj) (i : nat) : list fine_choice :=
  ResetBegin i
  :: replicate (S (N.to_nat (semaphore l))) DrainOnce
  ++ replicate (Z.to_nat (limit l - current l)) ReleaseOnce
  ++ [ResetEnd].

(** A second caller is blocked on line 30 when the timer of the first epoch
    runs [_reset]; it takes the token as soon as line 66 has released it. *)
Definition caller_blocked_at_reset : list fine_choice :=
  [Coarse (Step 0); Coarse (Step 0); Coarse (Step 0); Coarse (Elapse 10);
   Coarse (Expire 0); ResetBegin 0; DrainOnce; ReleaseOnce; Coarse (Step 1);
   ResetEnd].

(** A [wait] has taken a token on line 73 before the reset and gives it
    back on line 74 after the first loop of [_reset] and before the second. *)
Definition wait_across_reset : list fine_choice :=
  [Coarse (Step 0); Coarse (Step 0); Coarse (Step 0); Coarse (Step 1);
   Coarse (Elapse 10); Coarse (Expire 0); ResetBegin 0; DrainOnce;
   Coarse (Step 1); ReleaseOnce; ReleaseOnce; ResetEnd].

(** The tokens and the calls in flight of a configuration, and whether a
    reset is under way. *)
Definition tokens_in_flight (cfg : option fine_config) : option (Z * Z * Z * bool) :=
  match cfg with
  | Some cfg =>
      Some (Z.of_N (semaphore (limiter (base cfg))),
            limit (limiter (base cfg)),
            current (limiter (base cfg)),
            match resetting cfg with Some _ => true | None => false end)
  | None => None
  end.

(** * Properties *)


(** ** The regions of [SingleRateLimiter] *)

Lemma call_acquire_token self :
  has_token self ->
  call_acquire self = Some (set_semaphore (N.pred (semaphore self)) self).
Proof.
  unfold has_token, call_acquire, Semaphore.acquire. intros H.
  apply N.ltb_lt in H. now rewrite H.
Qed.

Lemma call_acquire_empty self :
  semaphore self = 0%N -> call_acquire self = None.
Proof.
  unfold call_acquire, Semaphore.acquire. now intros ->.
Qed.

Lemma call_acquire_Some self self' :
  call_acquire self = Some self' ->
  has_token self /\ self' = set_semaphore (N.pred (semaphore self)) self.
Proof.
  unfold has_token, call_acquire, Semaphore.acquire.
  destruct (0 <? semaphore self)%N eqn:E; [|discriminate].
  intros [= <-]. split; [now apply N.ltb_lt | reflexivity].
Qed.

Lemma call_finally_current now ok self :
  current (call_finally now ok self) = current self - 1.
Proof. unfold call_finally. destruct (resetter self), ok; reflexivity. Qed.

Lemma call_finally_total now ok self :
  _total_calls (call_finally now ok self) = _total_calls self + 1.
Proof. unfold call_finally. destruct (resetter self), ok; reflexivity. Qed.

Lemma call_finally_successful now ok self :
  _successful_calls (call_finally now ok self)
  = _successful_calls self + (if ok then 1 else 0).
Proof. unfold call_finally. destruct (resetter self), ok; simpl; lia. Qed.

Lemma call_finally_semaphore now ok self :
  semaphore (call_finally now ok self) = semaphore self.
Proof. unfold call_finally. destruct (resetter self), ok; reflexivity. Qed.

Lemma call_finally_limit now ok self :
  limit (call_finally now ok self) = limit self.
Proof. unfold call_finally. destruct (resetter self), ok; reflexivity. Qed.

(** What [call] comes to once the token is there. *)
Lemma call_admitted {Env} now (method : option (Method Env)) args env self :
  has_token self ->
  call now method args env self
  = Some (fst (apply_method method args env), snd (apply_method method args env),
          call_finally now (returned (fst (apply_method method args env)))
            (call_enter (set_semaphore (N.pred (semaphore self)) self))).
Proof.
  intros H. unfold call. rewrite (call_acquire_token _ H).
  now destruct (apply_method method args env).
Qed.

Lemma call_blocked {Env} now (method : option (Method Env)) args env self :
  semaphore self = 0%N -> call now method args env self = None.
Proof. intros H. unfold call. now rewrite (call_acquire_empty _ H). Qed.

Lemma call_Some_token {Env} now (method : option (Method Env)) args env self res :
  call now method args env self = Some res -> has_token self.
Proof.
  unfold call. destruct (call_acquire self) eqn:E; [|discriminate].
  intros _. now apply call_acquire_Some in E.
Qed.

(** ** C3: a method that raises *)

(** C3. A [SingleRateLimiter.call] whose method raises: without a token the
    call blocks before anything else; with a token the caller gets that very
    exception, and the bookkeeping has run: the call was counted in flight
    on entry ([current + 1]) and is taken out again ([current] is back where
    it was), [_total_calls] is one more and [_successful_calls] is
    unchanged. *)
Theorem call_raise_bookkeeping {Env} now (method : option (Method Env)) args
    env env' exc self :
  apply_method method args env = (Raise exc, env') ->
  (semaphore self = 0%N -> call now method args env self = None) /\
  (has_token self ->
   exists acquired self',
     call_acquire self = Some acquired /\
     call now method args env self = Some (Raise exc, env', self') /\
     self' = call_finally now false (call_enter acquired) /\
     current (call_enter acquired) = current self + 1 /\
     current self' = current (call_enter acquired) - 1 /\
     current self' = current self /\
     _total_calls self' = _total_calls self + 1 /\
     _successful_calls self' = _successful_calls self).
Proof.
  intros Hm. split; [apply call_blocked|]. intros Htok.
  eexists _, _. split; [apply (call_acquire_token _ Htok)|].
  rewrite (call_admitted _ _ _ _ _ Htok), Hm. cbn [fst snd returned].
  split; [reflexivity|]. split; [reflexivity|].
  rewrite call_finally_current, call_finally_total, call_finally_successful.
  cbn [call_enter set_current set_semaphore current _total_calls _successful_calls].
  repeat split; lia.
Qed.

Lemma call_raise_bookkeeping_witness :
  call 0 (Some failing) [] tt drained_2_10 = None /\
  exists acquired self',
    call_acquire limiter_2_10 = Some acquired /\
    call 0 (Some failing) [] tt limiter_2_10
    = Some (Raise (PyStr "APIError"), tt, self') /\
    self' = call_finally 0 false (call_enter acquired) /\
    current (call_enter acquired) = current limiter_2_10 + 1 /\
    current self' = current (call_enter acquired) - 1 /\
    current self' = current limiter_2_10 /\
    _total_calls self' = _total_calls limiter_2_10 + 1 /\
    _successful_calls self' = _successful_calls limiter_2_10.
Proof.
  split.
  - apply (proj1 (call_raise_bookkeeping 0 (Some failing) [] tt tt
                    (PyStr "APIError") drained_2_10 eq_refl)).
    reflexivity.
  - apply (proj2 (call_raise_bookkeeping 0 (Some failing) [] tt tt
                    (PyStr "APIError") limiter_2_10 eq_refl)).
    unfold has_token. simpl. lia.
Defined.

(** ** C8: no method *)

(** C8. [call] without a method blocks when there is no token; with a token
    it takes exactly one, returns [None] to the caller, and counts one more
    call, a successful one. *)
Theorem call_without_method {Env} now args (env : Env) self :
  (semaphore self = 0%N -> call now None args env self = None) /\
  (has_token self ->
   exists self',
     call now None args env self = Some (Return PyNone, env, self') /\
     semaphore self' = N.pred (semaphore self) /\
     Z.of_N (semaphore self') = Z.of_N (semaphore self) - 1 /\
     _total_calls self' = _total_calls self + 1 /\
     _successful_calls self' = _successful_calls self + 1).
Proof.
  split; [apply call_blocked|].
  intros Htok. eexists. rewrite (call_admitted _ _ _ _ _ Htok).
  cbn [apply_method fst snd returned].
  split; [reflexivity|].
  rewrite call_finally_semaphore, call_finally_total, call_finally_successful.
  cbn [call_enter set_current set_semaphore semaphore _total_calls _successful_calls].
  unfold has_token in Htok. repeat split; lia.
Qed.

Lemma call_without_method_witness :
  call 0 None [] tt drained_2_10 = None /\
  exists self',
    call 0 None [] tt limiter_2_10 = Some (Return PyNone, tt, self') /\
    semaphore self' = N.pred (semaphore limiter_2_10) /\
    Z.of_N (semaphore self') = Z.of_N (semaphore limiter_2_10) - 1 /\
    _total_calls self' = _total_calls limiter_2_10 + 1 /\
    _successful_calls self' = _successful_calls limiter_2_10 + 1.
Proof.
  split.
  - apply (proj1 (call_without_method 0 [] tt drained_2_10)). reflexivity.
  - apply (proj2 (call_without_method 0 [] tt limiter_2_10)).
    unfold has_token. simpl. lia.
Defined.

(** ** The composite limiter, member by member *)

Lemma set_semaphore_same self : set_semaphore (semaphore self) self = self.
Proof. now destruct self. Qed.

Lemma wait_token self : has_token self -> wait self = Some self.
Proof.
  intros H. unfold wait, wait_acquire. rewrite (call_acquire_token _ H).
  unfold wait_release, Semaphore.release. simpl.
  unfold has_token in H. rewrite N.succ_pred by lia.
  now destruct self.
Qed.

Lemma wait_blocked self : semaphore self = 0%N -> wait self = None.
Proof. intros H. unfold wait, wait_acquire. now rewrite (call_acquire_empty _ H). Qed.

Lemma token_or_empty self : {has_token self} + {semaphore self = 0%N}.
Proof.
  unfold has_token. destruct (semaphore self); [right; reflexivity | left; lia].
Qed.

Lemma multi_wait_tokens (limits : MultiRateLimiter.obj) :
  Forall has_token limits -> MultiRateLimiter.wait limits = Some limits.
Proof.
  induction 1 as [|l ls Hl _ IH]; simpl; [reflexivity|].
  now rewrite (wait_token _ Hl), IH.
Qed.

Lemma multi_wait_blocked (limits : MultiRateLimiter.obj) :
  Exists (fun l => semaphore l = 0%N) limits -> MultiRateLimiter.wait limits = None.
Proof.
  induction limits as [|l ls IH]; intros H; [inversion H|].
  simpl. destruct (token_or_empty l) as [Hl|Hl].
  - rewrite (wait_token _ Hl).
    inversion H as [? ? H0|? ? H0]; subst.
    + unfold has_token in Hl. lia.
    + now rewrite (IH H0).
  - now rewrite (wait_blocked _ Hl).
Qed.

Lemma tokens_or_blocked (limits : MultiRateLimiter.obj) :
  {Forall has_token limits} + {Exists (fun l => semaphore l = 0%N) limits}.
Proof.
  induction limits as [|l ls [IH|IH]].
  - left. constructor.
  - destruct (token_or_empty l); [left; now constructor | right; now constructor].
  - right. now constructor.
Qed.

Lemma count_call_token now ok l :
  has_token l -> MultiRateLimiter.count_call now ok l = Some (counted now ok l).
Proof.
  intros H. unfold MultiRateLimiter.count_call.
  now rewrite (call_admitted _ _ _ _ _ H).
Qed.

Lemma multi_finally_tokens now ok (limits : MultiRateLimiter.obj) :
  Forall has_token limits ->
  MultiRateLimiter.call_finally now ok limits = Some (map (counted now ok) limits).
Proof.
  induction 1 as [|l ls Hl _ IH]; simpl; [reflexivity|].
  now rewrite (count_call_token _ _ _ Hl), IH.
Qed.

Lemma multi_call_admitted {Env} now (method : option (Method Env)) args env
    (limits : MultiRateLimiter.obj) :
  Forall has_token limits ->
  MultiRateLimiter.call now method args env limits
  = Some (fst (apply_method method args env), snd (apply_method method args env),
          map (counted now (returned (fst (apply_method method args env)))) limits).
Proof.
  intros H. unfold MultiRateLimiter.call. rewrite (multi_wait_tokens _ H).
  destruct (apply_method method args env) as [r env']. cbn [fst snd].
  now rewrite (multi_finally_tokens _ _ _ H).
Qed.

Lemma multi_call_blocked {Env} now (method : option (Method Env)) args env
    (limits : MultiRateLimiter.obj) :
  Exists (fun l => semaphore l = 0%N) limits ->
  MultiRateLimiter.call now method args env limits = None.
Proof.
  intros H. unfold MultiRateLimiter.call. now rewrite (multi_wait_blocked _ H).
Qed.

Lemma counted_semaphore now ok l :
  semaphore (counted now ok l) = N.pred (semaphore l).
Proof.
  unfold counted. destruct ok; cbn [_decrease_successful_calls set_successful_calls semaphore];
    now rewrite call_finally_semaphore.
Qed.

Lemma counted_total now ok l :
  _total_calls (counted now ok l) = _total_calls l + 1.
Proof.
  unfold counted. destruct ok; cbn [_decrease_successful_calls set_successful_calls _total_calls];
    now rewrite call_finally_total.
Qed.

Lemma counted_successful now ok l :
  _successful_calls (counted now ok l)
  = _successful_calls l + (if ok then 1 else 0).
Proof.
  unfold counted.
  destruct ok; cbn [_decrease_successful_calls set_successful_calls _successful_calls];
    rewrite call_finally_successful; simpl; lia.
Qed.

(** ** C2: a method that raises, under the composite limiter *)

(** C2. A composite [call] whose method raises: when a member has no token
    the call blocks in [wait], before the method is run; when every member
    has one, the call hands the exception to the caller together with
    members that have all been updated: for each of them [_total_calls] is
    one more and [_successful_calls] is what it was (the increment of
    [limit.call()] is taken back by [_decrease_successful_calls]). *)
Theorem multi_call_raise_members {Env} now (method : option (Method Env)) args
    env env' exc (limits : MultiRateLimiter.obj) :
  apply_method method args env = (Raise exc, env') ->
  (Exists (fun l => semaphore l = 0%N) limits ->
   MultiRateLimiter.call now method args env limits = None) /\
  (Forall has_token limits ->
   exists limits',
     MultiRateLimiter.call now method args env limits = Some (Raise exc, env', limits') /\
     Forall2 (fun l l' =>
                _total_calls l' = _total_calls l + 1 /\
                _successful_calls l' = _successful_calls l /\
                l' = _decrease_successful_calls
                       (call_finally now true
                          (call_enter (set_semaphore (N.pred (semaphore l)) l))))
             limits limits').
Proof.
  intros Hm. split; [apply multi_call_blocked|].
  intros Htok. eexists. rewrite (multi_call_admitted _ _ _ _ _ Htok), Hm.
  cbn [fst snd returned]. split; [reflexivity|].
  clear. induction limits as [|l ls IH]; cbn [map]; constructor; [|exact IH].
  rewrite counted_total, counted_successful. repeat split; lia.
Qed.

Lemma multi_call_raise_members_witness :
  MultiRateLimiter.call 0 (Some failing) [] tt [limiter_2_10; drained_2_10] = None /\
  exists limits',
    MultiRateLimiter.call 0 (Some failing) [] tt [limiter_2_10; limiter_2_10]
    = Some (Raise (PyStr "APIError"), tt, limits') /\
    Forall2 (fun l l' =>
               _total_calls l' = _total_calls l + 1 /\
               _successful_calls l' = _successful_calls l /\
               l' = _decrease_successful_calls
                      (call_finally 0 true
                         (call_enter (set_semaphore (N.pred (semaphore l)) l))))
            [limiter_2_10; limiter_2_10] limits'.
Proof.
  split.
  - apply (proj1 (multi_call_raise_members 0 (Some failing) [] tt tt
                    (PyStr "APIError") [limiter_2_10; drained_2_10] eq_refl)).
    apply Exists_cons_tl, Exists_cons_hd. reflexivity.
  - apply (proj2 (multi_call_raise_members 0 (Some failing) [] tt tt
                    (PyStr "APIError") [limiter_2_10; limiter_2_10] eq_refl)).
    repeat constructor.
Defined.

(** ** C7: no members *)

(** C7. A composite limiter without members is constructed without error;
    its [calls] is the integer 0 and not a tuple, its [wait] returns at once
    and changes nothing, and its [call] never blocks, neither before the
    method nor after it: it evaluates [method( *args )] and gives the caller
    what that gave, in the environment the method left ([None] without a
    method), and has no member to admit or count with. *)
Theorem multi_without_members :
  MultiRateLimiter.__init__ [] = Some [] /\
  MultiRateLimiter.calls [] = MultiRateLimiter.CallsInt 0 /\
  (forall successful total,
     MultiRateLimiter.calls [] <> MultiRateLimiter.CallsTuple successful total) /\
  MultiRateLimiter.wait [] = Some [] /\
  (forall Env now (method : option (Method Env)) args env,
     MultiRateLimiter.call now method args env []
     = Some (fst (apply_method method args env), snd (apply_method method args env), [])) /\
  (forall Env now args (env : Env),
     MultiRateLimiter.call now None args env [] = Some (Return PyNone, env, [])) /\
  (forall Env now (method : Method Env) args env,
     MultiRateLimiter.call now (Some method) args env []
     = Some (fst (method args env), snd (method args env), []) /\
     MultiRateLimiter.call_progress now (Some method) args env []
     = MultiRateLimiter.Completed (fst (method args env)) (snd (method args env)) []) /\
  (forall Env now args (env : Env),
     MultiRateLimiter.call_progress now None args env []
     = MultiRateLimiter.Completed (Return PyNone) env []).
Proof.
  repeat split; try reflexivity.
  - discriminate.
  - intros. unfold MultiRateLimiter.call. simpl.
    now destruct (apply_method method args env).
  - unfold MultiRateLimiter.call. simpl. now destruct (method args env).
  - unfold MultiRateLimiter.call_progress. simpl. now destruct (method args env).
Qed.

(** A method that returns its first argument and one that raises, under a
    composite limiter without members. *)
Lemma multi_without_members_witness :
  MultiRateLimiter.call 0 (Some echo) [PyInt 7; PyInt 8] tt []
  = Some (Return (PyInt 7), tt, []) /\
  MultiRateLimiter.call 0 (Some failing) [PyInt 7] tt []
  = Some (Raise (PyStr "APIError"), tt, []) /\
  MultiRateLimiter.call_progress 0 (Some counting) [PyInt 7] 41 []
  = MultiRateLimiter.Completed (Return (PyInt 7)) 42 [] /\
  MultiRateLimiter.call 0 None [PyInt 7] tt [] = Some (Return PyNone, tt, []).
Proof.
  destruct multi_without_members as (_ & _ & _ & _ & _ & Hnone & Hsome & _).
  split; [exact (proj1 (Hsome unit 0 echo [PyInt 7; PyInt 8] tt))|].
  split; [exact (proj1 (Hsome unit 0 failing [PyInt 7] tt))|].
  split; [exact (proj2 (Hsome Z 0 counting [PyInt 7] 41))|].
  exact (Hnone unit 0 [PyInt 7] tt).
Defined.

(** ** C10: the arguments *)

(** C10. [call(method, *args)] evaluates [method( *args )], with the
    arguments it was given, and the caller gets what that evaluation gave,
    for the single and for the composite limiter: whenever the call
    completes its outcome is that of [method args], and it completes when
    the tokens are there. *)
Theorem call_applies_method_to_args {Env} now (method : Method Env) args env :
  (forall self r env' self',
     call now (Some method) args env self = Some (r, env', self') ->
     (r, env') = method args env) /\
  (forall self, has_token self ->
     exists self',
       call now (Some method) args env self
       = Some (fst (method args env), snd (method args env), self')) /\
  (forall limits r env' limits',
     MultiRateLimiter.call now (Some method) args env limits = Some (r, env', limits') ->
     (r, env') = method args env) /\
  (forall limits, Forall has_token limits ->
     exists limits',
       MultiRateLimiter.call now (Some method) args env limits
       = Some (fst (method args env), snd (method args env), limits')).
Proof.
  repeat split.
  - intros self r env' self' H.
    pose proof (call_Some_token _ _ _ _ _ _ H) as Htok.
    rewrite (call_admitted _ _ _ _ _ Htok) in H. simpl in H.
    injection H as <- <- _. now destruct (method args env).
  - intros self Htok. eexists. now rewrite (call_admitted _ _ _ _ _ Htok).
  - intros limits r env' limits' H.
    destruct (tokens_or_blocked limits) as [Htok|Hb].
    + rewrite (multi_call_admitted _ _ _ _ _ Htok) in H. simpl in H.
      injection H as <- <- _. now destruct (method args env).
    + now rewrite (multi_call_blocked _ _ _ _ _ Hb) in H.
  - intros limits Htok. eexists. now rewrite (multi_call_admitted _ _ _ _ _ Htok).
Qed.

Lemma call_applies_method_to_args_witness :
  (Return (PyInt 7), tt) = echo [PyInt 7; PyInt 8] tt /\
  (exists self',
     call 0 (Some echo) [PyInt 7; PyInt 8] tt limiter_2_10
     = Some (Return (PyInt 7), tt, self')) /\
  (Return (PyInt 7), tt) = echo [PyInt 7] tt /\
  (exists limits',
     MultiRateLimiter.call 0 (Some echo) [PyInt 7] tt [limiter_2_10; limiter_1_10]
     = Some (Return (PyInt 7), tt, limits')).
Proof.
  destruct (call_applies_method_to_args 0 echo [PyInt 7; PyInt 8] tt)
    as (Hs1 & Hs2 & _ & _).
  destruct (call_applies_method_to_args 0 echo [PyInt 7] tt)
    as (_ & _ & Hm1 & Hm2).
  split; [|split; [|split]].
  - apply (Hs1 limiter_2_10 _ _
             (call_finally 0 true (call_enter (set_semaphore 1%N limiter_2_10)))).
    reflexivity.
  - apply (Hs2 limiter_2_10). unfold has_token. cbn. lia.
  - apply (Hm1 [limiter_2_10; limiter_1_10] _ _
             [counted 0 true limiter_2_10; counted 0 true limiter_1_10]).
    reflexivity.
  - apply (Hm2 [limiter_2_10; limiter_1_10]).
    repeat constructor.
Defined.

(** ** C6: two members, one caller *)

Lemma multi_admitted_two {Env} now (reqs : list (request Env)) :
  forall env l1 l2,
    multi_admitted now reqs env [l1; l2]
    = Nat.min (length reqs) (N.to_nat (N.min (semaphore l1) (semaphore l2))).
Proof.
  induction reqs as [|[method args] reqs IH]; intros env l1 l2; [reflexivity|].
  cbn [multi_admitted length].
  destruct (tokens_or_blocked [l1; l2]) as [Htok|Hb].
  - rewrite (multi_call_admitted _ _ _ _ _ Htok). cbn [map].
    rewrite IH, !counted_semaphore.
    inversion Htok as [|? ? H1 Htok']; subst.
    inversion Htok' as [|? ? H2 _]; subst.
    unfold has_token in *. lia.
  - rewrite (multi_call_blocked _ _ _ _ _ Hb).
    inversion Hb as [? ? H0|? ? H0]; subst; [lia|].
    inversion H0 as [? ? H1|? ? H1]; subst; [lia|inversion H1].
Qed.

Lemma multi_calls_two {Env} now (reqs : list (request Env)) :
  forall env l1 l2,
    (N.of_nat (length reqs) <= N.min (semaphore l1) (semaphore l2))%N ->
    exists rs env' l1' l2',
      multi_calls now reqs env [l1; l2] = Some (rs, env', [l1'; l2']) /\
      length rs = length reqs /\
      semaphore l1' = (semaphore l1 - N.of_nat (length reqs))%N /\
      semaphore l2' = (semaphore l2 - N.of_nat (length reqs))%N.
Proof.
  induction reqs as [|[method args] reqs IH]; intros env l1 l2 Hlen.
  - exists [], env, l1, l2. cbn. repeat split; lia.
  - cbn [length] in Hlen. cbn [multi_calls length].
    assert (Htok : Forall has_token [l1; l2]).
    { unfold has_token. repeat constructor; lia. }
    rewrite (multi_call_admitted _ _ _ _ _ Htok). cbn [map].
    edestruct (IH (snd (apply_method method args env))
                 (counted now (returned (fst (apply_method method args env))) l1)
                 (counted now (returned (fst (apply_method method args env))) l2))
      as (rs & env' & l1' & l2' & Hrun & Hrs & H1 & H2).
    { rewrite !counted_semaphore. lia. }
    rewrite Hrun. eexists _, _, _, _. split; [reflexivity|].
    rewrite H1, H2, !counted_semaphore. cbn [length]. repeat split; lia.
Qed.

Lemma multi_init_two C1 E1 C2 E2 limits :
  MultiRateLimiter.__init__ [(C1, E1); (C2, E2)] = Some limits ->
  0 <= C1 /\ 0 <= C2 /\
  exists l1 l2, limits = [l1; l2] /\
    semaphore l1 = Z.to_N C1 /\ semaphore l2 = Z.to_N C2.
Proof.
  cbn. unfold __init__, Semaphore.__init__.
  destruct (C1 <? 0) eqn:H1; [discriminate|].
  destruct (C2 <? 0) eqn:H2; [discriminate|].
  intros [= <-]. repeat split; try lia.
  eexists _, _. repeat split.
Qed.

Lemma multi_finally_upto_tokens now ok (limits : MultiRateLimiter.obj) :
  Forall has_token limits ->
  MultiRateLimiter.call_finally_upto now ok limits = (map (counted now ok) limits, true).
Proof.
  induction 1 as [|l ls Hl _ IH]; cbn [MultiRateLimiter.call_finally_upto map];
    [reflexivity|].
  now rewrite (count_call_token _ _ _ Hl), IH.
Qed.

(** With a token in every member the call gets to its end. *)
Lemma multi_progress_admitted {Env} now (method : option (Method Env)) args env
    (limits : MultiRateLimiter.obj) :
  Forall has_token limits ->
  MultiRateLimiter.call_progress now method args env limits
  = MultiRateLimiter.Completed
      (fst (apply_method method args env)) (snd (apply_method method args env))
      (map (counted now (returned (fst (apply_method method args env)))) limits).
Proof.
  intros H. unfold MultiRateLimiter.call_progress. rewrite (multi_wait_tokens _ H).
  destruct (apply_method method args env) as [r env']. cbn [fst snd].
  now rewrite (multi_finally_upto_tokens _ _ _ H).
Qed.

(** With a member that has no token the call blocks in [wait]: the method
    is not run. *)
Lemma multi_progress_blocked {Env} now (method : option (Method Env)) args env
    (limits : MultiRateLimiter.obj) :
  Exists (fun l => semaphore l = 0%N) limits ->
  MultiRateLimiter.call_progress now method args env limits
  = MultiRateLimiter.BlockedInWait.
Proof.
  intros H. unfold MultiRateLimiter.call_progress.
  now rewrite (multi_wait_blocked _ H).
Qed.

Lemma multi_finally_as_upto now ok (limits : MultiRateLimiter.obj) :
  MultiRateLimiter.call_finally now ok limits
  = if snd (MultiRateLimiter.call_finally_upto now ok limits)
    then Some (fst (MultiRateLimiter.call_finally_upto now ok limits))
    else None.
Proof.
  induction limits as [|l ls IH];
    cbn [MultiRateLimiter.call_finally MultiRateLimiter.call_finally_upto];
    [reflexivity|].
  destruct (MultiRateLimiter.count_call now ok l) as [l'|]; [|reflexivity].
  rewrite IH.
  now destruct (MultiRateLimiter.call_finally_upto now ok ls) as [ls' [|]].
Qed.

(** [call] returns exactly when [call_progress] is [Completed], with the
    same outcome, environment and members. *)
Lemma multi_call_as_progress {Env} now (method : option (Method Env)) args env
    (limits : MultiRateLimiter.obj) :
  MultiRateLimiter.call now method args env limits
  = match MultiRateLimiter.call_progress now method args env limits with
    | MultiRateLimiter.Completed r env' limits' => Some (r, env', limits')
    | _ => None
    end.
Proof.
  unfold MultiRateLimiter.call, MultiRateLimiter.call_progress.
  destruct (MultiRateLimiter.wait limits) as [limits1|]; [|reflexivity].
  destruct (apply_method method args env) as [r env'].
  rewrite multi_finally_as_upto.
  now destruct (MultiRateLimiter.call_finally_upto now (returned r) limits1) as [ls [|]].
Qed.

Lemma multi_operations_run_two {Env} now (reqs : list (request Env)) :
  forall env l1 l2,
    multi_operations_run now reqs env [l1; l2]
    = Nat.min (length reqs) (N.to_nat (N.min (semaphore l1) (semaphore l2))).
Proof.
  induction reqs as [|[method args] reqs IH]; intros env l1 l2; [reflexivity|].
  cbn [multi_operations_run length].
  destruct (tokens_or_blocked [l1; l2]) as [Htok|Hb].
  - rewrite (multi_progress_admitted _ _ _ _ _ Htok). cbn [map].
    rewrite IH, !counted_semaphore.
    inversion Htok as [|? ? H1 Htok']; subst.
    inversion Htok' as [|? ? H2 _]; subst.
    unfold has_token in *. lia.
  - rewrite (multi_progress_blocked _ _ _ _ _ Hb).
    inversion Hb as [? ? H0|? ? H0]; subst; [lia|].
    inversion H0 as [? ? H1|? ? H1]; subst; [lia|inversion H1].
Qed.

(** C6. A composite limiter over two members with the capacities [C1] and
    [C2], and one caller that makes its calls one after the other: exactly
    [min C1 C2] calls are admitted before one blocks. Of any sequence of
    requests, [min (length reqs) (min C1 C2)] have their method run, and as
    many return, before the caller blocks. The first [min C1 C2] calls all
    complete, each of them takes one token of either member; the call after
    them blocks in [wait], before its method is run, and not in the
    [finally] loop. *)
Theorem multi_two_members_admit_min C1 E1 C2 E2 limits :
  MultiRateLimiter.__init__ [(C1, E1); (C2, E2)] = Some limits ->
  forall Env now (reqs : list (request Env)) env,
    multi_admitted now reqs env limits
    = Nat.min (length reqs) (Z.to_nat (Z.min C1 C2)) /\
    multi_operations_run now reqs env limits
    = Nat.min (length reqs) (Z.to_nat (Z.min C1 C2)) /\
    (Z.of_nat (length reqs) <= Z.min C1 C2 ->
     exists rs env' l1' l2',
       multi_calls now reqs env limits = Some (rs, env', [l1'; l2']) /\
       Z.of_N (semaphore l1') = C1 - Z.of_nat (length reqs) /\
       Z.of_N (semaphore l2') = C2 - Z.of_nat (length reqs) /\
       (Z.of_nat (length reqs) = Z.min C1 C2 ->
        forall method args,
          MultiRateLimiter.call now method args env' [l1'; l2'] = None /\
          MultiRateLimiter.call_progress now method args env' [l1'; l2']
          = MultiRateLimiter.BlockedInWait)).
Proof.
  intros Hinit Env now reqs env.
  destruct (multi_init_two _ _ _ _ _ Hinit) as (HC1 & HC2 & l1 & l2 & -> & Hs1 & Hs2).
  split; [|split].
  - rewrite multi_admitted_two, Hs1, Hs2. lia.
  - rewrite multi_operations_run_two, Hs1, Hs2. lia.
  - intros Hlen.
    destruct (multi_calls_two now reqs env l1 l2) as (rs & env' & l1' & l2' & Hrun & _ & H1 & H2).
    { rewrite Hs1, Hs2. lia. }
    exists rs, env', l1', l2'. split; [exact Hrun|].
    rewrite H1, H2, Hs1, Hs2. repeat split; try lia.
    + apply multi_call_blocked.
      destruct (Z.le_ge_cases C1 C2).
      * apply Exists_cons_hd. lia.
      * apply Exists_cons_tl, Exists_cons_hd. lia.
    + apply multi_progress_blocked.
      destruct (Z.le_ge_cases C1 C2).
      * apply Exists_cons_hd. lia.
      * apply Exists_cons_tl, Exists_cons_hd. lia.
Qed.

(** Capacities 2 and 5: of three requests two have their method run, the
    third blocks in [wait] with the environment as the second left it. *)
Lemma multi_two_members_admit_min_witness :
  MultiRateLimiter.__init__ [(2, 1); (5, 120)] = Some limits_2_5 /\
  multi_admitted 0 three_requests tt limits_2_5 = 2%nat /\
  multi_operations_run 0 three_counting 0 limits_2_5 = 2%nat /\
  exists rs env' l1' l2',
    multi_calls 0 two_requests tt limits_2_5 = Some (rs, env', [l1'; l2']) /\
    Z.of_N (semaphore l1') = 0 /\
    Z.of_N (semaphore l2') = 3 /\
    MultiRateLimiter.call 0 (Some echo) [] env' [l1'; l2'] = None /\
    MultiRateLimiter.call_progress 0 (Some echo) [] env' [l1'; l2']
    = MultiRateLimiter.BlockedInWait.
Proof.
  split; [reflexivity|].
  destruct (multi_two_members_admit_min 2 1 5 120 limits_2_5 eq_refl
              unit 0 three_requests tt) as (Hthree & _ & _).
  destruct (multi_two_members_admit_min 2 1 5 120 limits_2_5 eq_refl
              Z 0 three_counting 0) as (_ & Hrun3 & _).
  destruct (multi_two_members_admit_min 2 1 5 120 limits_2_5 eq_refl
              unit 0 two_requests tt) as (_ & _ & Htwo).
  split; [exact Hthree|]. split; [exact Hrun3|].
  destruct (Htwo ltac:(cbn; lia)) as (rs & env' & l1' & l2' & Hrun & H1 & H2 & Hblock).
  exists rs, env', l1', l2'.
  split; [exact Hrun|]. split; [exact H1|]. split; [exact H2|].
  apply Hblock. reflexivity.
Defined.

(** ** C4: the first epoch of a single limiter *)

Lemma init_in_first_epoch C E now self :
  __init__ C E = Some self -> 0 <= C /\ in_first_epoch C E now 0 self.
Proof.
  unfold __init__, Semaphore.__init__.
  destruct (C <? 0) eqn:HC; [discriminate|].
  intros [= <-]. split; [lia|].
  unfold in_first_epoch. cbn. repeat split. f_equal. lia.
Qed.

Lemma call_in_first_epoch {Env} C E now n (method : option (Method Env)) args env self :
  in_first_epoch C E now n self ->
  Z.of_nat n < C ->
  exists r env' self',
    call now method args env self = Some (r, env', self') /\
    in_first_epoch C E now (S n) self'.
Proof.
  intros (HE & Hsem & Hcur & Hlim & Hres & Htim) Hn.
  assert (Htok : has_token self) by (unfold has_token; lia).
  rewrite (call_admitted _ _ _ _ _ Htok).
  eexists _, _, _. split; [reflexivity|].
  destruct self as [spe sem cur lim res tot suc tms]. cbn in *. subst.
  unfold in_first_epoch, call_finally, call_enter, start_resetter.
  destruct n; cbn;
    destruct (returned (fst (apply_method method args env))); cbn;
    repeat split; try lia.
Qed.

Lemma single_calls_in_first_epoch {Env} C E now (reqs : list (request Env)) :
  forall n env self,
    in_first_epoch C E now n self ->
    Z.of_nat (n + length reqs) <= C ->
    exists rs env' self',
      single_calls now reqs env self = Some (rs, env', self') /\
      length rs = length reqs /\
      in_first_epoch C E now (n + length reqs) self'.
Proof.
  induction reqs as [|[method args] reqs IH]; intros n env self Hin Hlen.
  - exists [], env, self. cbn. rewrite Nat.add_0_r. auto.
  - cbn [length] in *. cbn [single_calls].
    destruct (call_in_first_epoch C E now n method args env self Hin)
      as (r & env1 & self1 & Hcall & Hin1); [lia|].
    rewrite Hcall.
    destruct (IH (S n) env1 self1 Hin1) as (rs & env' & self' & Hrun & Hrs & Hin');
      [lia|].
    rewrite Hrun. exists (r :: rs), env', self'.
    replace (n + S (length reqs))%nat with (S n + length reqs)%nat by lia.
    cbn [length]. auto.
Qed.

Lemma drain_loop_zero fuel : forall v, (N.to_nat v <= fuel)%nat -> _drain_loop fuel v = 0%N.
Proof.
  induction fuel as [|fuel IH]; intros v Hv; cbn.
  - lia.
  - unfold Semaphore.try_acquire. destruct (0 <? v)%N eqn:E.
    + apply N.ltb_lt in E. apply IH. lia.
    + apply N.ltb_ge in E. lia.
Qed.

Lemma drain_semaphore self : semaphore (_drain self) = 0%N.
Proof. unfold _drain. cbn. now apply drain_loop_zero. Qed.

Lemma iter_release n v : Nat.iter n Semaphore.release v = (v + N.of_nat n)%N.
Proof.
  induction n as [|n IH]; simpl; [lia|].
  rewrite IH. unfold Semaphore.release. lia.
Qed.

Lemma reset_semaphore self :
  Z.of_N (semaphore (_reset self)) = Z.max 0 (limit self - current self).
Proof.
  unfold _reset, release_n. cbn [set_resetter set_semaphore semaphore].
  rewrite iter_release, drain_semaphore. unfold _drain. cbn. lia.
Qed.

(** What the passing of time does to a limiter in its first epoch. *)
Lemma advance_in_first_epoch C E now n t self :
  in_first_epoch C E now (S n) self ->
  (t < now + Z.max 0 E -> advance t self = self) /\
  (now + Z.max 0 E <= t -> Z.of_N (semaphore (advance t self)) = Z.max 0 C).
Proof.
  intros (HE & Hsem & Hcur & Hlim & Hres & Htim).
  unfold advance. rewrite Htim. cbn [length seq foldl].
  unfold timer_fire, timer_expire. rewrite Htim.
  cbn [lookup list_lookup]. unfold due, deadline.
  cbn [is_waiting status started interval andb].
  split; intros Ht.
  - destruct (now + Z.max 0 E <=? t) eqn:Hd; [lia | reflexivity].
  - destruct (now + Z.max 0 E <=? t) eqn:Hd; [|lia].
    unfold timer_run. cbn -[_reset]. rewrite reset_semaphore. cbn. lia.
Qed.

(** C4. A limiter made with a positive capacity [C] starts with exactly [C]
    tokens. Calls made one after the other are all served as long as there
    are at most [C] of them, and each takes one token. After [C] of them a
    further call blocks for as long as the epoch that the first call
    started has not elapsed, and is served once it has: the timer has then
    run [_reset]. *)
Theorem single_first_epoch C E now self0 :
  0 < C ->
  __init__ C E = Some self0 ->
  Z.of_N (semaphore self0) = C /\
  forall Env (reqs : list (request Env)) env,
    Z.of_nat (length reqs) <= C ->
    exists rs env' self,
      single_calls now reqs env self0 = Some (rs, env', self) /\
      length rs = length reqs /\
      Z.of_N (semaphore self) = C - Z.of_nat (length reqs) /\
      (Z.of_nat (length reqs) = C ->
       forall method args t,
         (t < now + Z.max 0 E ->
          call t method args env' (advance t self) = None) /\
         (now + Z.max 0 E <= t ->
          Z.of_N (semaphore (advance t self)) = C /\
          is_Some (call t method args env' (advance t self)))).
Proof.
  intros HC Hinit.
  destruct (init_in_first_epoch C E now self0 Hinit) as [_ Hin0].
  split; [destruct Hin0 as (_ & -> & _); lia|].
  intros Env reqs env Hlen.
  destruct (single_calls_in_first_epoch C E now reqs 0 env self0 Hin0)
    as (rs & env' & self & Hrun & Hrs & Hin); [cbn; lia|].
  cbn [Nat.add] in Hin.
  exists rs, env', self. split; [exact Hrun|]. split; [exact Hrs|].
  split; [destruct Hin as (_ & -> & _); lia|].
  intros Hfull method args t.
  destruct (length reqs) as [|n] eqn:Hn; [cbn in Hfull; lia|].
  destruct (advance_in_first_epoch C E now n t self Hin) as [Hbefore Hafter].
  split; intros Ht.
  - rewrite (Hbefore Ht). apply call_blocked.
    destruct Hin as (_ & -> & _). lia.
  - specialize (Hafter Ht). split; [lia|].
    rewrite call_admitted; [eauto | unfold has_token; lia].
Qed.

Lemma single_first_epoch_witness :
  exists rs env' self,
    single_calls 0 two_requests tt limiter_2_10 = Some (rs, env', self) /\
    length rs = 2%nat /\
    Z.of_N (semaphore self) = 0 /\
    call 9 None [] env' (advance 9 self) = None /\
    is_Some (call 10 None [] env' (advance 10 self)).
Proof.
  destruct (proj2 (single_first_epoch 2 10 0 limiter_2_10 ltac:(lia) eq_refl)
              unit two_requests tt ltac:(cbn; lia))
    as (rs & env' & self & Hrun & Hrs & Hsem & Hfull).
  exists rs, env', self.
  split; [exact Hrun|]. split; [exact Hrs|]. split; [exact Hsem|].
  split.
  - apply (proj1 (Hfull eq_refl None [] 9)). lia.
  - apply (proj2 (Hfull eq_refl None [] 10)). lia.
Defined.

(** ** C1: the counters under any schedule *)

Lemma tally_app {A} (p : A -> bool) l1 l2 :
  tally p (l1 ++ l2) = tally p l1 + tally p l2.
Proof. induction l1 as [|x l1 IH]; cbn; [reflexivity | rewrite IH; lia]. Qed.

Lemma tally_nonneg {A} (p : A -> bool) l : 0 <= tally p l.
Proof. induction l as [|x l IH]; cbn; [lia | destruct (p x); lia]. Qed.

(** Taking the first region off a thread. *)
Lemma tally_pool_step (p : action -> bool) (ths : list (list action)) :
  forall i a rest,
    ths !! i = Some (a :: rest) ->
    tally p (concat (<[i := rest]> ths))
    = tally p (concat ths) - (if p a then 1 else 0).
Proof.
  induction ths as [|th ths IH]; intros [|i] a rest H; try discriminate.
  - cbn in H. injection H as ->.
    change (<[0%nat := rest]> ((a :: rest) :: ths)) with (rest :: ths).
    cbn [concat]. rewrite !tally_app. cbn [tally]. lia.
  - cbn in H.
    change (<[S i := rest]> (th :: ths)) with (th :: <[i := rest]> ths).
    cbn [concat]. rewrite !tally_app, (IH _ _ _ H). lia.
Qed.

Lemma tally_pool_done (p : action -> bool) (ths : list (list action)) :
  Forall (fun th => th = []) ths -> tally p (concat ths) = 0.
Proof.
  induction 1 as [|th ths -> _ IH]; cbn; [reflexivity | exact IH].
Qed.

(** The code of the invocations has one [finally] block for each [call]. *)
Lemma tally_program (p : action -> bool) (q : invocation -> bool) :
  (forall i, tally p (code i) = if q i then 1 else 0) ->
  forall iss, tally p (concat (map program iss)) = count_where q iss.
Proof.
  intros Hpq iss. unfold count_where.
  induction iss as [|ivs iss IH]; [reflexivity|].
  cbn. rewrite !tally_app, IH. f_equal.
  unfold program. induction ivs as [|i ivs IH']; [reflexivity|].
  cbn. rewrite tally_app, IH', Hpq. reflexivity.
Qed.

Lemma reset_counters self :
  _total_calls (_reset self) = _total_calls self /\
  _successful_calls (_reset self) = _successful_calls self.
Proof. split; reflexivity. Qed.

Lemma act_counters now a self self' :
  act now a self = Some self' ->
  _total_calls self' = _total_calls self + (if is_finally a then 1 else 0) /\
  _successful_calls self' = _successful_calls self + (if is_finally_ok a then 1 else 0).
Proof.
  destruct a as [| |ok| | |seconds]; cbn [act is_finally is_finally_ok].
  - intros H. apply call_acquire_Some in H as [_ ->]. cbn. lia.
  - intros [= <-]. cbn. lia.
  - intros [= <-]. rewrite call_finally_total, call_finally_successful.
    destruct ok; lia.
  - intros H. apply call_acquire_Some in H as [_ ->]. cbn. lia.
  - intros [= <-]. cbn. lia.
  - intros [= <-]. unfold reset_in, cancel_resetter.
    destruct (resetter self); cbn; lia.
Qed.

(** Every step of the scheduler keeps the sum of the calls counted and the
    [finally] blocks still to run. *)
Lemma sched_counters c cfg cfg' :
  sched c cfg = Some cfg' ->
  _total_calls (limiter cfg') + tally is_finally (concat (threads cfg'))
  = _total_calls (limiter cfg) + tally is_finally (concat (threads cfg)) /\
  _successful_calls (limiter cfg') + tally is_finally_ok (concat (threads cfg'))
  = _successful_calls (limiter cfg) + tally is_finally_ok (concat (threads cfg)).
Proof.
  destruct c as [i|d|i|i]; cbn [sched].
  - destruct (threads cfg !! i) as [[|a rest]|] eqn:Hth; try discriminate.
    destruct (act (clock cfg) a (limiter cfg)) as [l|] eqn:Hact; [|discriminate].
    intros [= <-]. cbn [limiter threads].
    rewrite !(tally_pool_step _ _ _ _ _ Hth).
    apply act_counters in Hact as [-> ->]. lia.
  - destruct (_ && _); [|discriminate]. intros [= <-]. cbn. lia.
  - unfold timer_expire. destruct (timers (limiter cfg) !! i) as [t|]; [|discriminate].
    destruct (due (clock cfg) t); [|discriminate].
    intros [= <-]. cbn. lia.
  - unfold timer_run. destruct (timers (limiter cfg) !! i) as [t|]; [|discriminate].
    destruct (is_running t); [|discriminate].
    intros [= <-]. cbn. lia.
Qed.

Lemma run_counters cs : forall cfg cfg',
  run cs cfg = Some cfg' ->
  _total_calls (limiter cfg') + tally is_finally (concat (threads cfg'))
  = _total_calls (limiter cfg) + tally is_finally (concat (threads cfg)) /\
  _successful_calls (limiter cfg') + tally is_finally_ok (concat (threads cfg'))
  = _successful_calls (limiter cfg) + tally is_finally_ok (concat (threads cfg)).
Proof.
  induction cs as [|c cs IH]; intros cfg cfg'; cbn [run].
  - intros [= <-]. split; reflexivity.
  - destruct (sched c cfg) as [cfg1|] eqn:Hc; [|discriminate].
    intros H. apply IH in H as [H1 H2].
    apply sched_counters in Hc as [H3 H4]. lia.
Qed.

Lemma count_calls_split iss :
  count_where is_passing_call iss
  = count_where is_call iss - count_where is_failing_call iss.
Proof.
  unfold count_where. induction (concat iss) as [|i l IH]; [reflexivity|].
  cbn. destruct i as [[|]| |]; cbn; lia.
Qed.

(** The [call] of a lone caller is the code of a [call] invocation, run
    region after region by one thread. *)
Lemma call_runs_its_code {Env} now (method : option (Method Env)) args env self
    r env' self' :
  call now method args env self = Some (r, env', self') ->
  run [Step 0; Step 0; Step 0]
      (mkConfig now self [code (DoCall (negb (returned r)))])
  = Some (mkConfig now self' [[]]).
Proof.
  intros H. pose proof (call_Some_token _ _ _ _ _ _ H) as Htok.
  rewrite (call_admitted _ _ _ _ _ Htok) in H. injection H as <- _ <-.
  cbn [run sched threads clock limiter code lookup list_lookup act].
  rewrite (call_acquire_token _ Htok), negb_involutive. reflexivity.
Qed.

(** C1. Threads make [call], [wait] and [reset_in] invocations on a freshly
    made limiter, interleaved in any way with each other, with the passing
    of time and with the timers. Once the invocations have all completed,
    [calls] is the pair [(K - F, K)], where [K] is the number of [call]
    invocations and [F] the number of those whose method raised. *)
Theorem calls_after_completed_calls C E now self0 iss cs cfg :
  __init__ C E = Some self0 ->
  run cs (boot now self0 iss) = Some cfg ->
  all_done cfg ->
  calls (limiter cfg)
  = (count_where is_call iss - count_where is_failing_call iss,
     count_where is_call iss).
Proof.
  intros Hinit Hrun Hdone.
  apply run_counters in Hrun as [Htot Hsuc].
  unfold all_done in Hdone.
  rewrite !(tally_pool_done _ _ Hdone) in *.
  cbn [boot limiter threads] in *.
  rewrite (tally_program is_finally is_call) in Htot
    by (intros [[|]| |]; reflexivity).
  rewrite (tally_program is_finally_ok is_passing_call) in Hsuc
    by (intros [[|]| |]; reflexivity).
  assert (_total_calls self0 = 0 /\ _successful_calls self0 = 0) as [H0 H1].
  { unfold __init__ in Hinit. destruct (Semaphore.__init__ C); [|discriminate].
    injection Hinit as <-. split; reflexivity. }
  unfold calls. rewrite <- count_calls_split. f_equal; lia.
Qed.

(** Three calls by two threads, the second of which raises; the third has
    to wait for the reset of the first epoch. *)
Lemma calls_after_completed_calls_witness :
  exists cfg,
    run [Step 0; Step 0; Step 1; Step 1; Step 0; Step 1; Elapse 10; Expire 0;
         RunReset 0; Step 0; Step 0; Step 0]
        (boot 0 limiter_2_10 [[DoCall false; DoCall false]; [DoCall true]])
    = Some cfg /\
    all_done cfg /\
    calls (limiter cfg) = (2, 3).
Proof.
  eexists. split; [vm_compute; reflexivity|]. split; [repeat constructor|].
  apply (calls_after_completed_calls 2 10 0 limiter_2_10
           [[DoCall false; DoCall false]; [DoCall true]]
           [Step 0; Step 0; Step 1; Step 1; Step 0; Step 1; Elapse 10; Expire 0;
            RunReset 0; Step 0; Step 0; Step 0]).
  - reflexivity.
  - vm_compute; reflexivity.
  - repeat constructor.
Defined.

(** ** C5: the tokens after a reset *)

(** The race between line 30 and line 34: with two calls in flight in a
    limiter of capacity one, a state that the schedule [overbooking] leads
    to, the function [_reset] leaves no token, and [limit - current]
    is -1. *)
Lemma reset_overbooked :
  __init__ 1 10 = Some limiter_1_10 /\
  run overbooking
      (boot 0 limiter_1_10 [[DoCall false]; [DoCall false]; [DoResetIn 0; DoResetIn 0]])
  = Some (mkConfig 0 overbooked [[Finally true]; [Finally true]; []]) /\
  timer_run 1 overbooked
  = Some (_reset (set_timers [mkTimer 0 0 Finished; mkTimer 0 0 Finished] overbooked)) /\
  Z.of_N (semaphore (_reset overbooked)) = 0 /\
  limit overbooked - current overbooked = -1 /\
  ~ (forall self, Z.of_N (semaphore (_reset self)) = limit self - current self).
Proof.
  split; [reflexivity|]. split; [vm_compute; reflexivity|].
  split; [vm_compute; reflexivity|]. split; [vm_compute; reflexivity|].
  split; [reflexivity|].
  intros H. specialize (H overbooked). vm_compute in H. discriminate H.
Qed.

(** The function [_reset], its two loops run as one step: it leaves
    [max 0 (limit - current)] tokens. *)
Theorem reset_tokens self :
  Z.of_N (semaphore (_reset self)) = Z.max 0 (limit self - current self) /\
  semaphore (_drain self) = 0%N /\
  (current self <= limit self ->
   Z.of_N (semaphore (_reset self)) = limit self - current self) /\
  (0 <= current self -> 0 <= limit self ->
   Z.of_N (semaphore (_reset self)) <= limit self).
Proof.
  pose proof (reset_semaphore self) as H.
  split; [exact H|]. split; [apply drain_semaphore|]. split; intros; lia.
Qed.

Lemma reset_tokens_witness :
  Z.of_N (semaphore (_reset one_in_flight)) = 2 /\
  Z.of_N (semaphore (_reset one_in_flight)) <= limit one_in_flight.
Proof.
  split.
  - apply (proj1 (proj2 (proj2 (reset_tokens one_in_flight)))). cbn. lia.
  - apply (proj2 (proj2 (proj2 (reset_tokens one_in_flight)))); cbn; lia.
Defined.

(** C5 as stated fails on the code, in which other threads use the
    semaphore while [_reset] runs. With limit 1 and no call in flight, a
    caller that was blocked on line 30 takes the token that line 66
    releases: right after the reset there is no token, and
    [limit - current] is 1. With limit 2 and no call in flight, a [wait]
    that holds a token gives it back between the two loops of [_reset]:
    right after the reset there are 3 tokens, more than the limit. In both
    runs no call is in flight when the reset starts or when it ends. *)
Lemma reset_with_other_threads :
  tokens_in_flight
    (fine_run [Coarse (Step 0); Coarse (Step 0); Coarse (Step 0);
               Coarse (Elapse 10); Coarse (Expire 0)]
       (mkFine (boot 0 limiter_1_10 [[DoCall false]; [DoCall false]]) None))
  = Some (0, 1, 0, false) /\
  tokens_in_flight
    (fine_run caller_blocked_at_reset
       (mkFine (boot 0 limiter_1_10 [[DoCall false]; [DoCall false]]) None))
  = Some (0, 1, 0, false) /\
  tokens_in_flight
    (fine_run wait_across_reset
       (mkFine (boot 0 limiter_2_10 [[DoCall false]; [DoWait]]) None))
  = Some (3, 2, 0, false) /\
  (exists cfg',
     fine_run caller_blocked_at_reset
       (mkFine (boot 0 limiter_1_10 [[DoCall false]; [DoCall false]]) None)
     = Some cfg' /\
     resetting cfg' = None /\
     Z.of_N (semaphore (limiter (base cfg')))
     <> limit (limiter (base cfg')) - current (limiter (base cfg'))) /\
  (exists cfg',
     fine_run wait_across_reset
       (mkFine (boot 0 limiter_2_10 [[DoCall false]; [DoWait]]) None)
     = Some cfg' /\
     resetting cfg' = None /\
     limit (limiter (base cfg')) < Z.of_N (semaphore (limiter (base cfg')))).
Proof.
  split; [vm_compute; reflexivity|]. split; [vm_compute; reflexivity|].
  split; [vm_compute; reflexivity|]. split.
  - eexists. split; [vm_compute; reflexivity|]. split; [reflexivity|].
    vm_compute. discriminate.
  - eexists. split; [vm_compute; reflexivity|]. split; [reflexivity|].
    vm_compute. reflexivity.
Qed.

Lemma fine_drain_rounds ck ths i rest : forall n l,
  N.to_nat (semaphore l) = n ->
  fine_run (replicate (S n) DrainOnce ++ rest)
           (mkFine (mkConfig ck l ths) (Some (i, Draining)))
  = fine_run rest
      (mkFine (mkConfig ck (set_semaphore 0%N l) ths)
              (Some (i, Refilling (Z.to_nat (limit l - current l))))).
Proof.
  induction n as [|n IH]; intros l Hn.
  - assert (Hz : semaphore l = 0%N) by lia.
    destruct l as [spe sem cur lim res tot suc tms]. cbn in Hz. subst sem.
    reflexivity.
  - change (replicate (S (S n)) DrainOnce ++ rest)
      with (DrainOnce :: (replicate (S n) DrainOnce ++ rest)).
    cbn [fine_run fine_sched resetting base limiter].
    unfold Semaphore.try_acquire.
    destruct (0 <? semaphore l)%N eqn:E; [|apply N.ltb_ge in E; lia].
    unfold with_limiter. cbn [clock threads].
    rewrite (IH (set_semaphore (N.pred (semaphore l)) l)) by (cbn; lia).
    reflexivity.
Qed.

Lemma fine_release_rounds ck ths i rest : forall n l,
  fine_run (replicate n ReleaseOnce ++ rest)
           (mkFine (mkConfig ck l ths) (Some (i, Refilling n)))
  = fine_run rest
      (mkFine (mkConfig ck (set_semaphore (semaphore l + N.of_nat n)%N l) ths)
              (Some (i, Refilling 0))).
Proof.
  induction n as [|n IH]; intros l.
  - cbn [replicate app]. rewrite N.add_0_r. now rewrite set_semaphore_same.
  - change (replicate (S n) ReleaseOnce ++ rest)
      with (ReleaseOnce :: (replicate n ReleaseOnce ++ rest)).
    cbn [fine_run fine_sched resetting base limiter].
    unfold with_limiter. cbn [clock threads].
    rewrite (IH (set_semaphore (Semaphore.release (semaphore l)) l)).
    cbn [semaphore set_semaphore]. unfold Semaphore.release.
    replace (N.succ (semaphore l) + N.of_nat n)%N
      with (semaphore l + N.of_nat (S n))%N by lia.
    reflexivity.
Qed.

Lemma reset_fields self :
  _reset self
  = set_resetter None
      (set_semaphore (N.of_nat (Z.to_nat (limit self - current self))) self).
Proof.
  unfold _reset, release_n, _drain.
  cbn [semaphore set_semaphore limit current].
  rewrite iter_release, drain_loop_zero by lia.
  rewrite N.add_0_l. reflexivity.
Qed.

(** C5, amended. A timer whose sleep has timed out runs [_reset] on a
    limiter in which no more than [limit] calls are in flight, and no other
    thread takes or gives back a token in the meantime: the steps of the
    reset follow one another. Then the reset completes, and right after it
    the tokens are [limit - current], with [current] as it was when the
    reset began: the first loop takes every token, the second releases
    [limit - current]. That is no more than [limit], and the calls in
    flight are untouched. It is what the function [_reset] computes in one
    step. *)
Theorem reset_undisturbed (cfg : fine_config) i t :
  resetting cfg = None ->
  timers (limiter (base cfg)) !! i = Some t ->
  is_running t = true ->
  0 <= current (limiter (base cfg)) <= limit (limiter (base cfg)) ->
  exists cfg',
    fine_run (reset_steps (limiter (base cfg)) i) cfg = Some cfg' /\
    resetting cfg' = None /\
    Z.of_N (semaphore (limiter (base cfg')))
    = limit (limiter (base cfg)) - current (limiter (base cfg)) /\
    Z.of_N (semaphore (limiter (base cfg'))) <= limit (limiter (base cfg)) /\
    current (limiter (base cfg')) = current (limiter (base cfg)) /\
    limit (limiter (base cfg')) = limit (limiter (base cfg)) /\
    resetter (limiter (base cfg')) = None /\
    timer_run i (limiter (base cfg)) = Some (limiter (base cfg')) /\
    sched (RunReset i) (base cfg) = Some (base cfg').
Proof.
  destruct cfg as [[ck l ths] res]. cbn [base resetting limiter].
  intros -> Hi Hrun Hcur.
  unfold reset_steps.
  cbn [fine_run fine_sched resetting base limiter]. rewrite Hi, Hrun.
  rewrite (fine_drain_rounds ck ths i _ _ l eq_refl).
  change (limit (set_semaphore 0%N l)) with (limit l).
  change (current (set_semaphore 0%N l)) with (current l).
  rewrite fine_release_rounds.
  cbn [fine_run fine_sched resetting base limiter semaphore set_semaphore timers].
  rewrite Hi. unfold with_limiter. cbn [clock threads].
  eexists. split; [reflexivity|].
  cbn [resetting base limiter semaphore set_resetter set_timers set_semaphore
       current limit resetter].
  assert (Hrun' : timer_run i l
                  = Some (set_resetter None
                            (set_timers (<[i := with_status Finished t]> (timers l))
                               (set_semaphore
                                  (0 + N.of_nat (Z.to_nat (limit l - current l)))%N l)))).
  { unfold timer_run. rewrite Hi, Hrun, reset_fields. rewrite N.add_0_l.
    reflexivity. }
  split; [reflexivity|]. split; [lia|]. split; [lia|].
  split; [reflexivity|]. split; [reflexivity|]. split; [reflexivity|].
  split; [exact Hrun'|].
  cbn [sched limiter clock threads]. now rewrite Hrun'.
Qed.

(** A limiter of capacity 3 with one call in flight and four tokens: the
    reset takes five rounds of the first loop and two of the second, and
    leaves two tokens. *)
Lemma reset_undisturbed_witness :
  exists cfg',
    fine_run (reset_steps one_in_flight 0) (mkFine (mkConfig 10 one_in_flight []) None)
    = Some cfg' /\
    resetting cfg' = None /\
    Z.of_N (semaphore (limiter (base cfg'))) = 3 - 1 /\
    Z.of_N (semaphore (limiter (base cfg'))) <= 3 /\
    current (limiter (base cfg')) = 1 /\
    limit (limiter (base cfg')) = 3 /\
    resetter (limiter (base cfg')) = None /\
    timer_run 0 one_in_flight = Some (limiter (base cfg')) /\
    sched (RunReset 0) (mkConfig 10 one_in_flight []) = Some (base cfg').
Proof.
  apply (reset_undisturbed (mkFine (mkConfig 10 one_in_flight []) None) 0
           (mkTimer 10 0 Running)).
  - reflexivity.
  - reflexivity.
  - reflexivity.
  - cbn. lia.
Defined.

(** ** C9: resets that are rescheduled *)

(** C9, on the schedule above. After [late_cancel] two timers sleep at the
    same time, 1 and 2. The two [reset_in] calls of thread 3 cancel timer 2
    and then timer 3 and leave timer 4, due at 12 + 30 = 42, but timer 1
    sleeps on: a reset runs at time 15 and another one at time 42, two
    resets after the two calls, the first at neither of the times asked
    for. *)
Theorem reset_in_after_late_cancel :
  __init__ 1 10 = Some limiter_1_10 /\
  clock_and_timers (run late_cancel (boot 0 limiter_1_10 four_threads))
  = Some (10, [1%nat; 2%nat], [0%nat]) /\
  clock_and_timers
    (run (late_cancel ++ reset_twice) (boot 0 limiter_1_10 four_threads))
  = Some (12, [1%nat; 4%nat], [0%nat]) /\
  clock_and_timers
    (run (late_cancel ++ reset_twice ++ first_reset)
         (boot 0 limiter_1_10 four_threads))
  = Some (15, [4%nat], [0%nat; 1%nat]) /\
  clock_and_timers
    (run (late_cancel ++ reset_twice ++ first_reset ++ second_reset)
         (boot 0 limiter_1_10 four_threads))
  = Some (42, [], [0%nat; 1%nat; 4%nat]).
Proof.
  split; [reflexivity|].
  split; [vm_compute; reflexivity|].
  split; [vm_compute; reflexivity|].
  split; vm_compute; reflexivity.
Qed.

(** *** Timers that nothing delays

    The schedule above needs [reset_in] to run between the time-out of a
    timer and its [_reset]. When every timer runs [_reset] as soon as its
    sleep times out ([timer_fire]), a timer that sleeps is always the one
    [resetter] refers to, and rescheduling behaves as intended. *)

Lemma sleepers_weaken (P Q : nat -> Prop) self :
  (forall i, P i -> Q i) -> sleepers_are P self -> sleepers_are Q self.
Proof.
  intros HPQ H i t Hi. destruct (H i t Hi) as [Hr Hw]. split; [exact Hr|].
  intros Hwait. apply HPQ, Hw, Hwait.
Qed.

Lemma sleepers_same_timers (P : nat -> Prop) self self' :
  timers self' = timers self -> sleepers_are P self -> sleepers_are P self'.
Proof. unfold sleepers_are. intros ->. auto. Qed.

Lemma init_tidy C E self : __init__ C E = Some self -> tidy self.
Proof.
  unfold __init__. destruct (Semaphore.__init__ C) as [sem|]; [|discriminate].
  intros [= <-] i t Hi. discriminate Hi.
Qed.

Lemma start_resetter_sleepers now seconds self :
  quiet self ->
  sleepers_are (fun i => i = length (timers self)) (start_resetter now seconds self).
Proof.
  intros Hq i t. unfold start_resetter. cbn [timers set_resetter set_timers].
  destruct (Nat.lt_ge_cases i (length (timers self))) as [Hlt|Hge].
  - rewrite lookup_app_l by exact Hlt. intros Hi.
    destruct (Hq i t Hi) as [Hr Hw]. split; [exact Hr|]. intros Hwait.
    destruct (Hw Hwait).
  - rewrite lookup_app_r by exact Hge. intros Hi.
    apply list_lookup_singleton_Some in Hi as [Hi <-].
    split; [reflexivity|]. intros _. lia.
Qed.

Lemma start_resetter_tidy now seconds self :
  quiet self -> tidy (start_resetter now seconds self).
Proof.
  intros Hq. eapply sleepers_weaken; [|apply start_resetter_sleepers, Hq].
  intros i ->. reflexivity.
Qed.

Lemma cancel_not_waiting t : is_waiting (cancel t) = false.
Proof. unfold cancel. destruct (is_waiting t) eqn:E; [reflexivity | exact E]. Qed.

Lemma cancel_not_running t : is_running t = false -> is_running (cancel t) = false.
Proof. unfold cancel. destruct (is_waiting t); [reflexivity | auto]. Qed.

Lemma cancel_resetter_quiet self : tidy self -> quiet (cancel_resetter self).
Proof.
  intros Ht i t. unfold cancel_resetter.
  destruct (resetter self) as [r|] eqn:Hres.
  - cbn [timers set_timers].
    destruct (decide (r = i)) as [->|Hne].
    + rewrite list_lookup_alter_eq.
      destruct (timers self !! i) as [t0|] eqn:Hi; [|discriminate].
      intros [= <-]. destruct (Ht i t0 Hi) as [Hr _].
      split; [now apply cancel_not_running|].
      rewrite cancel_not_waiting. discriminate.
    + rewrite list_lookup_alter_ne by exact Hne. intros Hi.
      destruct (Ht i t Hi) as [Hr Hw]. split; [exact Hr|].
      intros Hwait. specialize (Hw Hwait). congruence.
  - intros Hi. destruct (Ht i t Hi) as [Hr Hw]. split; [exact Hr|].
    intros Hwait. specialize (Hw Hwait). congruence.
Qed.

Lemma reset_in_timers now seconds self :
  timers (reset_in now seconds self)
  = timers (cancel_resetter self) ++ [mkTimer seconds now Waiting] /\
  resetter (reset_in now seconds self) = Some (length (timers self)) /\
  length (timers (cancel_resetter self)) = length (timers self).
Proof.
  unfold reset_in, start_resetter, _drain, cancel_resetter.
  destruct (resetter self); cbn [timers resetter set_resetter set_timers set_semaphore];
    rewrite ?length_alter; auto.
Qed.

Lemma reset_in_sleepers now seconds self :
  tidy self ->
  sleepers_are (fun i => i = length (timers self)) (reset_in now seconds self).
Proof.
  intros Ht. pose proof (cancel_resetter_quiet self Ht) as Hq.
  destruct (reset_in_timers now seconds self) as (_ & _ & Hlen).
  rewrite <- Hlen.
  apply (start_resetter_sleepers now seconds (_drain (cancel_resetter self))).
  exact Hq.
Qed.

Lemma reset_in_tidy now seconds self : tidy self -> tidy (reset_in now seconds self).
Proof.
  intros Ht. eapply sleepers_weaken; [|apply reset_in_sleepers, Ht].
  intros i ->. now destruct (reset_in_timers now seconds self) as (_ & -> & _).
Qed.

Lemma call_finally_tidy now ok self : tidy self -> tidy (call_finally now ok self).
Proof.
  intros Ht. unfold call_finally.
  destruct (resetter self) as [r|] eqn:Hres.
  - destruct ok; intros i t Hi; destruct (Ht i t Hi) as [Hr Hw]; auto.
  - assert (Hq : quiet self).
    { eapply sleepers_weaken; [|exact Ht]. cbn. congruence. }
    pose proof (start_resetter_tidy now (seconds_per_epoch self) self Hq) as Hs.
    destruct ok; intros i t Hi; destruct (Hs i t Hi) as [Hr Hw]; auto.
Qed.

Lemma timer_fire_idle now i self :
  (forall t, timers self !! i = Some t -> is_waiting t = false) ->
  timer_fire now i self = self.
Proof.
  intros H. unfold timer_fire, timer_expire.
  destruct (timers self !! i) as [t|] eqn:Hi; [|reflexivity].
  unfold due. now rewrite (H t eq_refl).
Qed.

(** A timer that is due runs [_reset] and is [Finished]. *)
Lemma timer_fire_due now i t self :
  timers self !! i = Some t -> due now t = true ->
  timer_fire now i self
  = _reset (set_timers (<[i := with_status Finished t]> (timers self)) self).
Proof.
  intros Hi Hdue. unfold timer_fire, timer_expire. rewrite Hi, Hdue.
  assert (Hlt : (i < length (timers self))%nat) by (eapply lookup_lt_Some, Hi).
  unfold timer_run. cbn [timers set_timers].
  rewrite list_lookup_insert_eq by exact Hlt.
  cbn [is_running with_status status]. unfold default, from_option, id.
  change (set_timers ?a (set_timers ?b self)) with (set_timers a self).
  do 2 f_equal. apply list_eq. intros j.
  destruct (decide (i = j)) as [->|Hne].
  - rewrite !list_lookup_insert_eq; rewrite ?length_insert; auto.
  - now rewrite !list_lookup_insert_ne by exact Hne.
Qed.

Lemma timer_fire_tidy now i self : tidy self -> tidy (timer_fire now i self).
Proof.
  intros Ht.
  destruct (timers self !! i) as [t|] eqn:Hi.
  - destruct (due now t) eqn:Hdue.
    + rewrite (timer_fire_due _ _ _ _ Hi Hdue).
      assert (Hres : resetter self = Some i).
      { apply (Ht i t Hi). unfold due in Hdue. now apply andb_prop in Hdue. }
      intros j tj. cbn [timers _reset set_resetter release_n _drain set_semaphore set_timers].
      destruct (decide (i = j)) as [->|Hne].
      * rewrite list_lookup_insert_eq by (eapply lookup_lt_Some, Hi).
        intros [= <-]. split; [reflexivity | discriminate].
      * rewrite list_lookup_insert_ne by exact Hne. intros Hj.
        destruct (Ht j tj Hj) as [Hr Hw]. split; [exact Hr|].
        intros Hwait. specialize (Hw Hwait). congruence.
    + unfold timer_fire, timer_expire. now rewrite Hi, Hdue.
  - unfold timer_fire, timer_expire. now rewrite Hi.
Qed.

Lemma act_tidy now a self self' :
  tidy self -> act now a self = Some self' -> tidy self'.
Proof.
  intros Ht. destruct a as [| |ok| | |seconds]; cbn [act].
  - intros H. apply call_acquire_Some in H as [_ ->]. exact Ht.
  - intros [= <-]. exact Ht.
  - intros [= <-]. now apply call_finally_tidy.
  - intros H. apply call_acquire_Some in H as [_ ->]. exact Ht.
  - intros [= <-]. exact Ht.
  - intros [= <-]. now apply reset_in_tidy.
Qed.

Lemma filter_none (p : nat -> bool) (l : list nat) :
  (forall i, In i l -> p i = false) -> List.filter p l = [].
Proof.
  induction l as [|x l IH]; intros H; [reflexivity|].
  cbn. rewrite (H x (or_introl eq_refl)). apply IH.
  intros i Hi. apply H. now right.
Qed.

Lemma seq_around (k n : nat) :
  (k < n)%nat -> seq 0 n = seq 0 k ++ k :: seq (S k) (n - S k).
Proof.
  intros H. replace n with (k + S (n - S k))%nat at 1 by lia.
  now rewrite List.seq_app.
Qed.

Lemma filter_seq_single (p : nat -> bool) (k n : nat) :
  (k < n)%nat -> p k = true -> (forall i, i <> k -> p i = false) ->
  List.filter p (seq 0 n) = [k].
Proof.
  intros Hk Hp Hothers. rewrite (seq_around k n Hk), List.filter_app. cbn.
  rewrite Hp, !filter_none; [reflexivity| |];
    intros i Hi; apply Hothers; apply List.in_seq in Hi; lia.
Qed.

Lemma pending_only (k : nat) (t : Timer) self :
  sleepers_are (fun i => i = k) self ->
  timers self !! k = Some t -> is_waiting t = true ->
  pending self = [k].
Proof.
  intros Hs Hk Hw. unfold pending, timers_where.
  apply filter_seq_single.
  - eapply lookup_lt_Some, Hk.
  - now rewrite Hk.
  - intros i Hne. destruct (timers self !! i) as [ti|] eqn:Hi; [|reflexivity].
    destruct (is_waiting ti) eqn:Hwi; [|reflexivity].
    destruct (Hs i ti Hi) as [_ H]. now specialize (H Hwi).
Qed.

Lemma pending_quiet self : quiet self -> pending self = [].
Proof.
  intros Hq. unfold pending, timers_where. apply filter_none. intros i _.
  destruct (timers self !! i) as [ti|] eqn:Hi; [|reflexivity].
  destruct (is_waiting ti) eqn:Hwi; [|reflexivity].
  destruct (Hq i ti Hi) as [_ H]. destruct (H Hwi).
Qed.

(** A limiter in which a timer sleeps has at most that one sleeping. *)
Lemma tidy_pending self : tidy self -> (length (pending self) <= 1)%nat.
Proof.
  intros Ht. destruct (resetter self) as [r|] eqn:Hres.
  - destruct (timers self !! r) as [t|] eqn:Hr.
    + destruct (is_waiting t) eqn:Hw.
      * rewrite (pending_only r t self); [cbn; lia | | exact Hr | exact Hw].
        eapply sleepers_weaken; [|exact Ht]. cbn. congruence.
      * rewrite pending_quiet; [cbn; lia|].
        intros i ti Hi. destruct (Ht i ti Hi) as [Hrun Hwait].
        split; [exact Hrun|]. intros Hwi. specialize (Hwait Hwi).
        assert (i = r) as -> by congruence. congruence.
    + rewrite pending_quiet; [cbn; lia|].
      intros i ti Hi. destruct (Ht i ti Hi) as [Hrun Hwait].
      split; [exact Hrun|]. intros Hwi. specialize (Hwait Hwi).
      assert (i = r) as -> by congruence. congruence.
  - rewrite pending_quiet; [cbn; lia|].
    eapply sleepers_weaken; [|exact Ht]. cbn. congruence.
Qed.

Lemma timer_fire_length now i self :
  length (timers (timer_fire now i self)) = length (timers self).
Proof.
  destruct (timers self !! i) as [t|] eqn:Hi.
  - destruct (due now t) eqn:Hdue.
    + rewrite (timer_fire_due _ _ _ _ Hi Hdue). cbn. apply length_insert.
    + unfold timer_fire, timer_expire. now rewrite Hi, Hdue.
  - unfold timer_fire, timer_expire. now rewrite Hi.
Qed.

Lemma foldl_fire_skip now (k : nat) (l : list nat) :
  ~ In k l ->
  forall self, sleepers_are (fun i => i = k) self ->
    foldl (fun self i => timer_fire now i self) self l = self.
Proof.
  induction l as [|x l IH]; intros Hk self Hs; [reflexivity|].
  cbn [foldl]. rewrite timer_fire_idle.
  - apply IH; [|exact Hs]. intros H. apply Hk. now right.
  - intros t Hx. destruct (is_waiting t) eqn:Hw; [|reflexivity].
    destruct (Hs x t Hx) as [_ H]. specialize (H Hw). subst x.
    destruct Hk. now left.
Qed.

(** With one timer sleeping, the passing of time is the firing of that
    timer. *)
Lemma advance_only now (k : nat) (t : Timer) self :
  sleepers_are (fun i => i = k) self ->
  timers self !! k = Some t ->
  advance now self = timer_fire now k self.
Proof.
  intros Hs Hk. unfold advance.
  rewrite (seq_around k (length (timers self))) by (eapply lookup_lt_Some, Hk).
  rewrite foldl_app. cbn [foldl].
  rewrite (foldl_fire_skip now k (seq 0 k) ltac:(intros H; apply List.in_seq in H; lia) self Hs).
  apply (foldl_fire_skip now k); [intros H; apply List.in_seq in H; lia|].
  destruct (due now t) eqn:Hdue.
  - rewrite (timer_fire_due _ _ _ _ Hk Hdue).
    intros j tj. cbn [timers _reset set_resetter release_n _drain set_semaphore set_timers].
    destruct (decide (k = j)) as [->|Hne].
    + rewrite list_lookup_insert_eq by (eapply lookup_lt_Some, Hk).
      intros [= <-]. split; [reflexivity | discriminate].
    + rewrite list_lookup_insert_ne by exact Hne. apply Hs.
  - unfold timer_fire, timer_expire. rewrite Hk, Hdue. exact Hs.
Qed.

Lemma reset_in_last now seconds self :
  timers (reset_in now seconds self) !! length (timers self)
  = Some (mkTimer seconds now Waiting) /\
  length (timers (reset_in now seconds self)) = S (length (timers self)).
Proof.
  destruct (reset_in_timers now seconds self) as (-> & _ & Hlen).
  rewrite lookup_app_r by lia.
  rewrite length_app, Hlen, Nat.sub_diag. cbn. split; [reflexivity | lia].
Qed.

Lemma reset_in_cancelled now seconds (k : nat) (t : Timer) self :
  resetter self = Some k -> timers self !! k = Some t ->
  timers (reset_in now seconds self) !! k = Some (cancel t).
Proof.
  intros Hres Hk.
  destruct (reset_in_timers now seconds self) as (-> & _ & Hlen).
  rewrite lookup_app_l by (rewrite Hlen; eapply lookup_lt_Some, Hk).
  unfold cancel_resetter. rewrite Hres. cbn [timers set_timers].
  now rewrite list_lookup_alter_eq, Hk.
Qed.

Lemma fired_timers now (k : nat) (t : Timer) self :
  sleepers_are (fun i => i = k) self ->
  timers self !! k = Some t -> due now t = true ->
  quiet (timer_fire now k self) /\
  timers (timer_fire now k self) = <[k := with_status Finished t]> (timers self).
Proof.
  intros Hs Hk Hdue. rewrite (timer_fire_due _ _ _ _ Hk Hdue).
  split; [|reflexivity].
  intros j tj. cbn [timers _reset set_resetter release_n _drain set_semaphore set_timers].
  destruct (decide (k = j)) as [->|Hne].
  - rewrite list_lookup_insert_eq by (eapply lookup_lt_Some, Hk).
    intros [= <-]. split; [reflexivity | discriminate].
  - rewrite list_lookup_insert_ne by exact Hne. intros Hj.
    destruct (Hs j tj Hj) as [Hr Hw]. split; [exact Hr|].
    intros Hwait. specialize (Hw Hwait). congruence.
Qed.

(** Rescheduling with timers that nothing delays. [reset_in(T1)] at time
    [t0] and [reset_in(T2)] at a time [t1] before [T1] has elapsed: the
    timer of the first call is cancelled and never runs, the timer of the
    second call is the only one that sleeps, and [_reset] runs when the
    time [t1 + T2] has come and not before. *)
Theorem reset_in_twice_undelayed self t0 T1 t1 T2 :
  tidy self ->
  t1 < t0 + Z.max 0 T1 ->
  let k := length (timers self) in
  let s1 := advance t1 (reset_in t0 T1 self) in
  let s2 := reset_in t1 T2 s1 in
  s1 = reset_in t0 T1 self /\
  tidy s2 /\
  pending s2 = [S k] /\
  timers s2 !! k = Some (mkTimer T1 t0 Cancelled) /\
  timers s2 !! S k = Some (mkTimer T2 t1 Waiting) /\
  forall t,
    (t < t1 + Z.max 0 T2 -> advance t s2 = s2) /\
    (t1 + Z.max 0 T2 <= t ->
     pending (advance t s2) = [] /\
     timers (advance t s2) !! k = Some (mkTimer T1 t0 Cancelled) /\
     timers (advance t s2) !! S k = Some (mkTimer T2 t1 Finished)).
Proof.
  intros Ht Hbefore. cbv zeta.
  pose proof (reset_in_sleepers t0 T1 self Ht) as H1s.
  destruct (reset_in_last t0 T1 self) as [H1k H1len].
  destruct (reset_in_timers t0 T1 self) as (_ & H1res & _).
  pose proof (reset_in_tidy t0 T1 self Ht) as H1t.
  set (k := length (timers self)) in *.
  assert (Hs1 : advance t1 (reset_in t0 T1 self) = reset_in t0 T1 self).
  { rewrite (advance_only t1 k _ _ H1s H1k).
    unfold timer_fire, timer_expire. rewrite H1k. unfold due, deadline. cbn.
    destruct (t0 + Z.max 0 T1 <=? t1) eqn:E; [lia | reflexivity]. }
  rewrite Hs1. split; [reflexivity|]. clear Hs1.
  set (r1 := reset_in t0 T1 self) in *.
  pose proof (reset_in_sleepers t1 T2 r1 H1t) as H2s. rewrite H1len in H2s.
  destruct (reset_in_last t1 T2 r1) as [H2k H2len]. rewrite H1len in H2k, H2len.
  pose proof (reset_in_cancelled t1 T2 k _ r1 H1res H1k) as H2c.
  change (cancel (mkTimer T1 t0 Waiting)) with (mkTimer T1 t0 Cancelled) in H2c.
  split; [now apply reset_in_tidy|].
  split; [apply (pending_only (S k) _ _ H2s H2k); reflexivity|].
  split; [exact H2c|]. split; [exact H2k|].
  intros t. rewrite (advance_only t (S k) _ _ H2s H2k).
  split; intros Hcmp.
  - unfold timer_fire, timer_expire. rewrite H2k. unfold due, deadline. cbn.
    destruct (t1 + Z.max 0 T2 <=? t) eqn:E; [lia | reflexivity].
  - assert (Hdue : due t (mkTimer T2 t1 Waiting) = true).
    { unfold due, deadline. cbn. apply Z.leb_le. lia. }
    destruct (fired_timers t (S k) _ _ H2s H2k Hdue) as [Hq Htm].
    split; [now apply pending_quiet|].
    rewrite Htm. split.
    + rewrite list_lookup_insert_ne by lia. exact H2c.
    + rewrite list_lookup_insert_eq by (rewrite H2len; lia). reflexivity.
Qed.

(** Undelayed timers keep the limiter tidy, whatever the threads do, and a
    tidy limiter has at most one timer sleeping. *)
Theorem undelayed_timers_one_pending C E self0 :
  __init__ C E = Some self0 ->
  tidy self0 /\
  (forall self, tidy self ->
     (length (pending self) <= 1)%nat /\
     (forall now i, tidy (timer_fire now i self)) /\
     (forall now a self', act now a self = Some self' -> tidy self')).
Proof.
  intros Hinit. split; [eapply init_tidy, Hinit|].
  intros self Ht. split; [now apply tidy_pending|].
  split; [intros; now apply timer_fire_tidy | intros; eapply act_tidy; eauto].
Qed.


(** * Further properties *)

(** ** [wait] *)

(** X1. [SingleRateLimiter.wait] is a probe: it blocks when the semaphore is
    empty, and with a token it returns and leaves the limiter exactly as it
    was (the token taken on line 73 is back after line 74, and nothing is
    counted). *)
Theorem wait_is_a_probe self :
  (semaphore self = 0%N -> wait self = None) /\
  (has_token self -> wait self = Some self).
Proof. split; [apply wait_blocked | apply wait_token]. Qed.

Lemma wait_is_a_probe_witness :
  wait drained_2_10 = None /\ wait limiter_2_10 = Some limiter_2_10.
Proof.
  split.
  - apply (proj1 (wait_is_a_probe drained_2_10)). reflexivity.
  - apply (proj2 (wait_is_a_probe limiter_2_10)). unfold has_token. cbn. lia.
Defined.

(** X2. [MultiRateLimiter.wait] returns exactly when every member has a
    token, and then no member has changed; a single member without a token
    makes it block. *)
Theorem multi_wait_is_a_probe (limits : MultiRateLimiter.obj) :
  (Exists (fun l => semaphore l = 0%N) limits -> MultiRateLimiter.wait limits = None) /\
  (Forall has_token limits -> MultiRateLimiter.wait limits = Some limits) /\
  (forall limits', MultiRateLimiter.wait limits = Some limits' ->
     limits' = limits /\ Forall has_token limits).
Proof.
  split; [apply multi_wait_blocked|]. split; [apply multi_wait_tokens|].
  intros limits' H. destruct (tokens_or_blocked limits) as [Htok|Hb].
  - rewrite (multi_wait_tokens _ Htok) in H. injection H as <-. auto.
  - now rewrite (multi_wait_blocked _ Hb) in H.
Qed.

Lemma multi_wait_is_a_probe_witness :
  MultiRateLimiter.wait [limiter_2_10; drained_2_10] = None /\
  MultiRateLimiter.wait limits_2_5 = Some limits_2_5.
Proof.
  split.
  - apply (proj1 (multi_wait_is_a_probe [limiter_2_10; drained_2_10])).
    apply Exists_cons_tl, Exists_cons_hd. reflexivity.
  - apply (proj1 (proj2 (multi_wait_is_a_probe limits_2_5))).
    repeat constructor.
Defined.

(** ** The constructor of the composite limiter *)

(** X3. [MultiRateLimiter(limits...)] fails (the [ValueError] of
    [threading.Semaphore]) as soon as one limit has a negative number of
    calls per epoch; otherwise it has one member for each limit, in the
    order given, each with [calls_per_epoch] tokens, that number as its
    limit, no call in flight, no timer and both counters at zero. *)
Theorem multi_init_members (limits : list (Z * Z)) :
  (Exists (fun l => fst l < 0) limits -> MultiRateLimiter.__init__ limits = None) /\
  (Forall (fun l => 0 <= fst l) limits ->
   MultiRateLimiter.__init__ limits = Some (map fresh limits)).
Proof.
  split.
  - induction limits as [|l ls IH]; intros H; [inversion H|].
    cbn [MultiRateLimiter.__init__]. unfold __init__, Semaphore.__init__.
    destruct (fst l <? 0) eqn:E; [reflexivity|].
    inversion H as [? ? H0|? ? H0]; subst; [lia|].
    now rewrite (IH H0).
  - induction 1 as [|l ls Hl _ IH]; [reflexivity|].
    cbn [MultiRateLimiter.__init__ map]. unfold __init__, Semaphore.__init__.
    destruct (fst l <? 0) eqn:E; [lia|]. now rewrite IH.
Qed.

Lemma multi_init_members_witness :
  MultiRateLimiter.__init__ [(10, 10); (-1, 600)] = None /\
  MultiRateLimiter.__init__ [(2, 1); (5, 120)] = Some limits_2_5.
Proof.
  split.
  - apply (proj1 (multi_init_members [(10, 10); (-1, 600)])).
    apply Exists_cons_tl, Exists_cons_hd. cbn. lia.
  - apply (proj2 (multi_init_members [(2, 1); (5, 120)])).
    repeat constructor; cbn; lia.
Defined.

(** ** The accounting of the composite limiter *)

Lemma call_finally_correction now self :
  _decrease_successful_calls (call_finally now true self) = call_finally now false self.
Proof.
  unfold call_finally, _decrease_successful_calls.
  destruct (resetter self);
    unfold set_successful_calls, set_total_calls, set_current, start_resetter,
           set_resetter, set_timers;
    cbn; f_equal; lia.
Qed.

(** X4. The round of the composite's [finally] loop leaves a member exactly
    as a call of the member's own would have left it: after a method that
    raised, [limit.call()] followed by [_decrease_successful_calls()] gives
    the state that [limit.call(method)] gives with a method that raises;
    after a method that returned, the state that it gives with a method that
    returns. *)
Theorem count_call_as_own_call {Env} now successful_call
    (method : option (Method Env)) args env l :
  has_token l ->
  returned (fst (apply_method method args env)) = successful_call ->
  exists r env' l',
    call now method args env l = Some (r, env', l') /\
    MultiRateLimiter.count_call now successful_call l = Some l'.
Proof.
  intros Htok Hok. rewrite (call_admitted _ _ _ _ _ Htok), Hok.
  eexists _, _, _. split; [reflexivity|].
  rewrite (count_call_token _ _ _ Htok). unfold counted.
  destruct successful_call; [reflexivity|].
  now rewrite call_finally_correction.
Qed.

Lemma count_call_as_own_call_witness :
  exists r env' l',
    call 0 (Some failing) [] tt limiter_2_10 = Some (r, env', l') /\
    MultiRateLimiter.count_call 0 false limiter_2_10 = Some l'.
Proof.
  apply (count_call_as_own_call 0 false (Some failing) [] tt limiter_2_10).
  - unfold has_token. cbn. lia.
  - reflexivity.
Defined.

Lemma multi_init_Some (limits : list (Z * Z)) : forall ms,
  MultiRateLimiter.__init__ limits = Some ms ->
  ms = map fresh limits /\ Forall (fun l => 0 <= fst l) limits.
Proof.
  induction limits as [|l ls IH]; intros ms; cbn [MultiRateLimiter.__init__ map].
  - intros [= <-]. split; [reflexivity | constructor].
  - unfold __init__, Semaphore.__init__.
    destruct (fst l <? 0) eqn:E; [discriminate|].
    destruct (MultiRateLimiter.__init__ ls) as [ms0|]; [|discriminate].
    intros [= <-]. destruct (IH ms0 eq_refl) as [-> HF].
    split; [reflexivity | constructor; [lia | exact HF]].
Qed.

Lemma tally_returned_raised (rs : list outcome) :
  tally returned rs = Z.of_nat (length rs) - tally raised rs.
Proof.
  induction rs as [|r rs IH]; [reflexivity|].
  cbn [tally length]. unfold raised at 1. destruct (returned r); cbn [negb]; lia.
Qed.

(** Every member counts every call of the composite limiter. *)
Lemma multi_calls_counters {Env} now (reqs : list (request Env)) :
  forall env (ms : MultiRateLimiter.obj) rs env' ms',
    multi_calls now reqs env ms = Some (rs, env', ms') ->
    length rs = length reqs /\
    Forall2 (fun l l' =>
               _total_calls l' = _total_calls l + Z.of_nat (length rs) /\
               _successful_calls l' = _successful_calls l + tally returned rs)
            ms ms'.
Proof.
  induction reqs as [|[method args] reqs IH]; intros env ms rs env' ms'; cbn [multi_calls].
  - intros [= <- <- <-]. split; [reflexivity|].
    apply Forall_Forall2_diag, Forall_true. intros l. cbn. lia.
  - destruct (tokens_or_blocked ms) as [Htok|Hb].
    + rewrite (multi_call_admitted _ _ _ _ _ Htok).
      set (r := fst (apply_method method args env)).
      set (env1 := snd (apply_method method args env)).
      destruct (multi_calls now reqs env1 (map (counted now (returned r)) ms))
        as [[[rs1 env2] ms2]|] eqn:Hrun; [|discriminate].
      intros [= <- <- <-].
      destruct (IH _ _ _ _ _ Hrun) as [Hlen HF].
      split; [cbn; lia|].
      apply Forall2_fmap_l in HF.
      eapply Forall2_impl; [exact HF|].
      intros l l' [Ht Hs]. cbn [compose] in *.
      rewrite counted_total in Ht. rewrite counted_successful in Hs.
      cbn [tally length]. destruct (returned r); lia.
    + now rewrite (multi_call_blocked _ _ _ _ _ Hb).
Qed.

(** X5. A composite limiter made with at least one limit, and one caller
    that makes its calls one after the other: once [K] calls have completed,
    [F] of them with a method that raised, [calls] is the tuple
    [(K - F, K)], and every member has these same counters. *)
Theorem multi_calls_stats (limits : list (Z * Z)) (ms : MultiRateLimiter.obj) :
  MultiRateLimiter.__init__ limits = Some ms ->
  limits <> [] ->
  forall Env now (reqs : list (request Env)) env rs env' ms',
    multi_calls now reqs env ms = Some (rs, env', ms') ->
    length rs = length reqs /\
    MultiRateLimiter.calls ms'
    = MultiRateLimiter.CallsTuple (Z.of_nat (length rs) - tally raised rs)
                                  (Z.of_nat (length rs)) /\
    Forall (fun l' => calls l' = (Z.of_nat (length rs) - tally raised rs,
                                  Z.of_nat (length rs))) ms'.
Proof.
  intros Hinit Hne Env now reqs env rs env' ms' Hrun.
  destruct (multi_init_Some _ _ Hinit) as [-> _].
  destruct (multi_calls_counters now reqs _ _ _ _ _ Hrun) as [Hlen HF].
  split; [exact Hlen|].
  assert (Hall : Forall (fun l' => calls l' = (Z.of_nat (length rs) - tally raised rs,
                                               Z.of_nat (length rs))) ms').
  { apply Forall2_fmap_l in HF.
    eapply Forall2_Forall_r; [exact HF|].
    apply Forall_true. intros l' l [Ht Hs]. cbn in Ht, Hs.
    unfold calls. rewrite Ht, Hs, tally_returned_raised. f_equal; lia. }
  split; [|exact Hall].
  destruct limits as [|l0 ls]; [congruence|].
  apply Forall2_fmap_l in HF. inversion HF as [|? l' ? ms1 _ _]; subst.
  inversion Hall as [|? ? Hl' _]; subst.
  unfold MultiRateLimiter.calls. cbn [lookup list_lookup].
  now rewrite Hl'.
Qed.

Lemma multi_calls_stats_witness :
  exists rs env' ms',
    multi_calls 0 two_requests tt limits_2_5 = Some (rs, env', ms') /\
    MultiRateLimiter.calls ms' = MultiRateLimiter.CallsTuple 1 2.
Proof.
  destruct (multi_calls 0 two_requests tt limits_2_5) as [[[rs env'] ms']|] eqn:Hrun;
    [|vm_compute in Hrun; discriminate].
  exists rs, env', ms'. split; [reflexivity|].
  destruct (multi_calls_stats [(2, 1); (5, 120)] limits_2_5 eq_refl
              ltac:(discriminate) unit 0 two_requests tt rs env' ms' Hrun)
    as (_ & Hcalls & _).
  rewrite Hcalls. vm_compute in Hrun. injection Hrun as <- _ _. reflexivity.
Defined.

(** ** [reset_in] *)

Lemma reset_in_fields now seconds self :
  semaphore (reset_in now seconds self) = 0%N /\
  calls (reset_in now seconds self) = calls self /\
  current (reset_in now seconds self) = current self /\
  limit (reset_in now seconds self) = limit self.
Proof.
  split.
  - change (semaphore (reset_in now seconds self))
      with (semaphore (_drain (cancel_resetter self))).
    apply drain_semaphore.
  - unfold reset_in, cancel_resetter. destruct (resetter self); repeat split.
Qed.

(** X6. [reset_in(seconds)] closes the limiter and reopens it later. It
    takes all the tokens and leaves the counters, the calls in flight and
    the limit as they are. When the timers are not delayed, the timer it
    starts is then the only one that sleeps. For a caller that is alone with
    the limiter afterwards (nothing but time passes between [reset_in] and
    its call: no other thread gives back the token of a [wait] or takes
    one), a call blocks at any time before [seconds] have passed (never,
    for [seconds <= 0]), and from then on the timer has run [_reset], which
    leaves [max 0 (limit - current)] tokens and no timer asleep. *)
Theorem reset_in_closes now seconds self :
  semaphore (reset_in now seconds self) = 0%N /\
  calls (reset_in now seconds self) = calls self /\
  current (reset_in now seconds self) = current self /\
  limit (reset_in now seconds self) = limit self /\
  (tidy self ->
   pending (reset_in now seconds self) = [length (timers self)] /\
   forall t,
     (t < now + Z.max 0 seconds ->
      forall Env (method : option (Method Env)) args env,
        call t method args env (advance t (reset_in now seconds self)) = None) /\
     (now + Z.max 0 seconds <= t ->
      Z.of_N (semaphore (advance t (reset_in now seconds self)))
      = Z.max 0 (limit self - current self) /\
      pending (advance t (reset_in now seconds self)) = [])).
Proof.
  destruct (reset_in_fields now seconds self) as (Hsem & Hcalls & Hcur & Hlim).
  split; [exact Hsem|]. split; [exact Hcalls|]. split; [exact Hcur|].
  split; [exact Hlim|]. intros Ht.
  pose proof (reset_in_sleepers now seconds self Ht) as Hs.
  destruct (reset_in_last now seconds self) as [Hk _].
  split; [apply (pending_only _ _ _ Hs Hk); reflexivity|].
  intros t. rewrite (advance_only t _ _ _ Hs Hk). split; intros Hcmp.
  - intros Env method args env. apply call_blocked.
    unfold timer_fire, timer_expire. rewrite Hk. unfold due, deadline. cbn.
    destruct (now + Z.max 0 seconds <=? t) eqn:E; [lia | exact Hsem].
  - assert (Hdue : due t (mkTimer seconds now Waiting) = true).
    { unfold due, deadline. cbn. apply Z.leb_le. lia. }
    destruct (fired_timers t _ _ _ Hs Hk Hdue) as [Hq _].
    split; [|now apply pending_quiet].
    rewrite (timer_fire_due _ _ _ _ Hk Hdue), reset_semaphore.
    change (limit (set_timers ?a ?s)) with (limit s).
    change (current (set_timers ?a ?s)) with (current s).
    now rewrite Hlim, Hcur.
Qed.

Lemma reset_in_closes_witness :
  pending (reset_in 3 5 one_call_made) = [1%nat] /\
  call 7 None [] tt (advance 7 (reset_in 3 5 one_call_made)) = None /\
  Z.of_N (semaphore (advance 8 (reset_in 3 5 one_call_made))) = 3.
Proof.
  destruct (reset_in_closes 3 5 one_call_made) as (_ & _ & _ & _ & H).
  assert (Ht : tidy one_call_made).
  { intros [|[|i]] t Hi; inversion Hi; subst; cbn; split; [reflexivity|reflexivity]. }
  destruct (H Ht) as [Hp Hadv]. split; [exact Hp|]. split.
  - apply (proj1 (Hadv 7)). cbn. lia.
  - apply (proj1 (proj2 (Hadv 8) ltac:(cbn; lia))).
Defined.

(** X7. [MultiRateLimiter.reset_in] closes every member: it keeps the
    members and their counters, calls in flight and limits, and leaves none
    of them a token, so that with at least one member [wait] and [call]
    block right after it. *)
Theorem multi_reset_in_closes now seconds (ms : MultiRateLimiter.obj) :
  length (MultiRateLimiter.reset_in now seconds ms) = length ms /\
  Forall (fun l => semaphore l = 0%N) (MultiRateLimiter.reset_in now seconds ms) /\
  Forall2 (fun l l' => calls l' = calls l /\ current l' = current l /\ limit l' = limit l)
          ms (MultiRateLimiter.reset_in now seconds ms) /\
  MultiRateLimiter.calls (MultiRateLimiter.reset_in now seconds ms)
  = MultiRateLimiter.calls ms /\
  (ms <> [] ->
   MultiRateLimiter.wait (MultiRateLimiter.reset_in now seconds ms) = None /\
   forall Env t (method : option (Method Env)) args env,
     MultiRateLimiter.call t method args env (MultiRateLimiter.reset_in now seconds ms)
     = None).
Proof.
  unfold MultiRateLimiter.reset_in.
  split; [apply length_map|].
  assert (Hall : Forall (fun l => semaphore l = 0%N) (map (reset_in now seconds) ms)).
  { apply Forall_fmap, Forall_true. intros l. apply reset_in_fields. }
  split; [exact Hall|]. split; [|split].
  - apply Forall2_fmap_r, Forall_Forall2_diag, Forall_true. intros l.
    destruct (reset_in_fields now seconds l) as (_ & ? & ? & ?). auto.
  - destruct ms as [|l ls]; [reflexivity|].
    unfold MultiRateLimiter.calls. cbn [map lookup list_lookup].
    now destruct (reset_in_fields now seconds l) as (_ & -> & _).
  - intros Hne. destruct ms as [|l ls]; [congruence|].
    assert (Hex : Exists (fun l => semaphore l = 0%N) (map (reset_in now seconds) (l :: ls))).
    { apply Exists_cons_hd. apply reset_in_fields. }
    split; [now apply multi_wait_blocked|].
    intros. now apply multi_call_blocked.
Qed.

Lemma multi_reset_in_closes_witness :
  MultiRateLimiter.wait (MultiRateLimiter.reset_in 0 30 limits_2_5) = None /\
  MultiRateLimiter.call 0 (Some echo) [PyInt 1] tt
    (MultiRateLimiter.reset_in 0 30 limits_2_5) = None.
Proof.
  destruct (multi_reset_in_closes 0 30 limits_2_5) as (_ & _ & _ & _ & H).
  destruct (H ltac:(discriminate)) as [Hw Hc].
  split; [exact Hw | apply Hc].
Defined.

(** ** The calls in flight and the admissions, under any schedule *)

Lemma tally_code (p : action -> bool) (q : invocation -> bool) :
  (forall i, tally p (code i) = if q i then 1 else 0) ->
  forall ivs, tally p (program ivs) = tally q ivs.
Proof.
  intros Hpq ivs. unfold program.
  induction ivs as [|i ivs IH]; [reflexivity|].
  cbn [map concat tally]. now rewrite tally_app, IH, Hpq.
Qed.

Lemma program_cons i ivs : program (i :: ivs) = code i ++ program ivs.
Proof. reflexivity. Qed.

(** A thread that runs its code in order still does after its next
    region. *)
Lemma in_order_tail a rest : in_order (a :: rest) -> in_order rest.
Proof.
  intros (r & ivs & Hr & Heq). destruct Hr.
  - destruct ivs as [|i ivs]; [discriminate|].
    rewrite program_cons in Heq. destruct i as [raises| |seconds]; cbn in Heq;
      injection Heq as _ ->.
    + exists [Enter; Finally (negb raises)], ivs. split; [constructor | reflexivity].
    + exists [WaitRelease], ivs. split; [constructor | reflexivity].
    + exists [], ivs. split; [constructor | reflexivity].
  - injection Heq as _ ->. exists [Finally ok], ivs. split; [constructor | reflexivity].
  - injection Heq as _ ->. exists [], ivs. split; [constructor | reflexivity].
  - injection Heq as _ ->. exists [], ivs. split; [constructor | reflexivity].
Qed.

(** In what is left of such a thread, every [Acquire] still has its [Enter]
    to come, every [Enter] its [Finally], and every [WaitAcquire] its
    [WaitRelease]. *)
Lemma in_order_tallies th :
  in_order th ->
  tally is_acquire th <= tally is_enter th /\
  tally is_enter th <= tally is_finally th /\
  tally is_wait_acquire th <= tally is_wait_release th.
Proof.
  intros (r & ivs & Hr & ->). rewrite !tally_app.
  rewrite (tally_code is_acquire is_call) by (intros [[|]| |]; reflexivity).
  rewrite (tally_code is_enter is_call) by (intros [[|]| |]; reflexivity).
  rewrite (tally_code is_finally is_call) by (intros [[|]| |]; reflexivity).
  rewrite (tally_code is_wait_acquire (fun i => match i with DoWait => true | _ => false end))
    by (intros [[|]| |]; reflexivity).
  rewrite (tally_code is_wait_release (fun i => match i with DoWait => true | _ => false end))
    by (intros [[|]| |]; reflexivity).
  destruct Hr; cbn; lia.
Qed.

Lemma pool_in_order_tallies (ths : list (list action)) :
  Forall in_order ths ->
  tally is_acquire (concat ths) <= tally is_enter (concat ths) /\
  tally is_enter (concat ths) <= tally is_finally (concat ths) /\
  tally is_wait_acquire (concat ths) <= tally is_wait_release (concat ths).
Proof.
  induction 1 as [|th ths Hth _ IH]; cbn [concat]; [cbn; lia|].
  rewrite !tally_app. apply in_order_tallies in Hth. lia.
Qed.

Lemma boot_in_order now l iss : Forall in_order (threads (boot now l iss)).
Proof.
  cbn [boot threads]. apply Forall_fmap, Forall_true. intros ivs.
  exists [], ivs. split; [constructor | reflexivity].
Qed.

Lemma sched_threads c cfg cfg' :
  sched c cfg = Some cfg' ->
  threads cfg' = threads cfg \/
  exists i a rest, c = Step i /\ threads cfg !! i = Some (a :: rest) /\
    act (clock cfg) a (limiter cfg) = Some (limiter cfg') /\
    threads cfg' = <[i := rest]> (threads cfg).
Proof.
  destruct c as [i|d|i|i]; cbn [sched].
  - destruct (threads cfg !! i) as [[|a rest]|] eqn:Hth; try discriminate.
    destruct (act (clock cfg) a (limiter cfg)) as [l|] eqn:Hact; [|discriminate].
    intros [= <-]. right. exists i, a, rest. auto.
  - destruct (_ && _); [|discriminate]. intros [= <-]. now left.
  - destruct (timer_expire _ _ _); [|discriminate]. intros [= <-]. now left.
  - destruct (timer_run _ _); [|discriminate]. intros [= <-]. now left.
Qed.

Lemma sched_in_order c cfg cfg' :
  sched c cfg = Some cfg' ->
  Forall in_order (threads cfg) -> Forall in_order (threads cfg').
Proof.
  intros H HF. destruct (sched_threads _ _ _ H) as [->|(i & a & rest & _ & Hi & _ & ->)];
    [exact HF|].
  apply Forall_insert; [exact HF|].
  eapply in_order_tail, (Forall_lookup_1 _ _ _ _ HF Hi).
Qed.

Lemma run_in_order cs : forall cfg cfg',
  run cs cfg = Some cfg' ->
  Forall in_order (threads cfg) -> Forall in_order (threads cfg').
Proof.
  induction cs as [|c cs IH]; intros cfg cfg'; cbn [run].
  - now intros [= <-].
  - destruct (sched c cfg) as [cfg1|] eqn:Hc; [|discriminate].
    intros H HF. eapply IH; [exact H|]. exact (sched_in_order _ _ _ Hc HF).
Qed.

Lemma act_current now a self self' :
  act now a self = Some self' ->
  current self' = current self + (if is_enter a then 1 else 0)
                  - (if is_finally a then 1 else 0).
Proof.
  destruct a as [| |ok| | |seconds]; cbn [act is_enter is_finally].
  - intros H. apply call_acquire_Some in H as [_ ->]. cbn. lia.
  - intros [= <-]. cbn. lia.
  - intros [= <-]. rewrite call_finally_current. lia.
  - intros H. apply call_acquire_Some in H as [_ ->]. cbn. lia.
  - intros [= <-]. cbn. lia.
  - intros [= <-]. destruct (reset_in_fields now seconds self) as (_ & _ & -> & _). lia.
Qed.

(** Every step of the scheduler keeps the calls in flight in step with the
    [Enter] and [Finally] regions still to run. *)
Lemma sched_current c cfg cfg' :
  sched c cfg = Some cfg' ->
  current (limiter cfg') + tally is_enter (concat (threads cfg'))
    - tally is_finally (concat (threads cfg'))
  = current (limiter cfg) + tally is_enter (concat (threads cfg))
    - tally is_finally (concat (threads cfg)).
Proof.
  destruct c as [i|d|i|i]; cbn [sched].
  - destruct (threads cfg !! i) as [[|a rest]|] eqn:Hth; try discriminate.
    destruct (act (clock cfg) a (limiter cfg)) as [l|] eqn:Hact; [|discriminate].
    intros [= <-]. cbn [limiter threads].
    rewrite !(tally_pool_step _ _ _ _ _ Hth).
    apply act_current in Hact as ->. lia.
  - destruct (_ && _); [|discriminate]. intros [= <-]. cbn. lia.
  - unfold timer_expire. destruct (timers (limiter cfg) !! i) as [t|]; [|discriminate].
    destruct (due (clock cfg) t); [|discriminate].
    intros [= <-]. cbn. lia.
  - unfold timer_run. destruct (timers (limiter cfg) !! i) as [t|]; [|discriminate].
    destruct (is_running t); [|discriminate].
    intros [= <-]. cbn. lia.
Qed.

Lemma run_current cs : forall cfg cfg',
  run cs cfg = Some cfg' ->
  current (limiter cfg') + tally is_enter (concat (threads cfg'))
    - tally is_finally (concat (threads cfg'))
  = current (limiter cfg) + tally is_enter (concat (threads cfg))
    - tally is_finally (concat (threads cfg)).
Proof.
  induction cs as [|c cs IH]; intros cfg cfg'; cbn [run].
  - now intros [= <-].
  - destruct (sched c cfg) as [cfg1|] eqn:Hc; [|discriminate].
    intros H. rewrite (IH _ _ H). exact (sched_current _ _ _ Hc).
Qed.

Lemma init_fields C E self :
  __init__ C E = Some self ->
  0 <= C /\ Z.of_N (semaphore self) = C /\ current self = 0 /\ limit self = C /\
  _total_calls self = 0 /\ _successful_calls self = 0.
Proof.
  unfold __init__, Semaphore.__init__.
  destruct (C <? 0) eqn:HC; [discriminate|].
  intros [= <-]. cbn. repeat split; lia.
Qed.

(** X8. Whatever the threads do ([call], [wait], [reset_in]) and however
    they are interleaved with each other and with the timers, [current] is
    the number of calls that are between line 34 and the [finally] block:
    the [Finally] regions still to run less the [Enter] regions still to
    run. It is never negative, and it is zero once every invocation has
    completed. *)
Theorem current_counts_calls_in_flight C E now self0 iss cs cfg :
  __init__ C E = Some self0 ->
  run cs (boot now self0 iss) = Some cfg ->
  current (limiter cfg)
  = tally is_finally (concat (threads cfg)) - tally is_enter (concat (threads cfg)) /\
  0 <= current (limiter cfg) /\
  (all_done cfg -> current (limiter cfg) = 0).
Proof.
  intros Hinit Hrun.
  pose proof (run_current _ _ _ Hrun) as Hcur.
  pose proof (run_in_order _ _ _ Hrun (boot_in_order now self0 iss)) as Hord.
  apply pool_in_order_tallies in Hord as (_ & Hle & _).
  cbn [boot limiter threads] in Hcur.
  rewrite (tally_program is_enter is_call) in Hcur by (intros [[|]| |]; reflexivity).
  rewrite (tally_program is_finally is_call) in Hcur by (intros [[|]| |]; reflexivity).
  destruct (init_fields _ _ _ Hinit) as (_ & _ & H0 & _).
  split; [lia|]. split; [lia|].
  intros Hdone. unfold all_done in Hdone.
  rewrite !(tally_pool_done _ _ Hdone) in Hcur. lia.
Qed.

Lemma current_counts_calls_in_flight_witness :
  exists cfg,
    run [Step 0; Step 0; Step 1; Step 1; Step 0] 
        (boot 0 limiter_2_10 [[DoCall false; DoCall false]; [DoCall true]])
    = Some cfg /\
    current (limiter cfg) = 1 /\
    threads cfg = [[Acquire; Enter; Finally true]; [Finally false]].
Proof.
  eexists. split; [vm_compute; reflexivity|]. split; [|reflexivity].
  rewrite (proj1 (current_counts_calls_in_flight 2 10 0 limiter_2_10
             [[DoCall false; DoCall false]; [DoCall true]]
             [Step 0; Step 0; Step 1; Step 1; Step 0] _ eq_refl
             ltac:(vm_compute; reflexivity))).
  reflexivity.
Defined.

Lemma program_no_reset_in ivs :
  Forall (fun i => is_reset_in i = false) ivs -> no_reset_in_action (program ivs).
Proof.
  unfold no_reset_in_action, program.
  induction 1 as [|i ivs Hi _ IH]; cbn [map concat]; [constructor|].
  apply Forall_app. split; [|exact IH].
  destruct i; try discriminate; repeat constructor.
Qed.

Lemma act_semaphore now a self self' :
  act now a self = Some self' ->
  is_reset_in_action a = false ->
  Z.of_N (semaphore self')
  = Z.of_N (semaphore self) - (if is_acquire a then 1 else 0)
    - (if is_wait_acquire a then 1 else 0) + (if is_wait_release a then 1 else 0).
Proof.
  destruct a as [| |ok| | |seconds];
    cbn [act is_acquire is_wait_acquire is_wait_release is_reset_in_action];
    try discriminate.
  - intros H _. apply call_acquire_Some in H as [Htok ->]. unfold has_token in Htok.
    cbn. lia.
  - intros [= <-] _. cbn. lia.
  - intros [= <-] _. rewrite call_finally_semaphore. lia.
  - intros H _. apply call_acquire_Some in H as [Htok ->]. unfold has_token in Htok.
    cbn. lia.
  - intros [= <-] _. cbn. unfold Semaphore.release. lia.
Qed.

(** Without [reset_in] and without a timer running [_reset], every step
    keeps the tokens in step with the regions that take and give them. *)
Lemma sched_tokens c cfg cfg' :
  is_run_reset c = false ->
  Forall no_reset_in_action (threads cfg) ->
  sched c cfg = Some cfg' ->
  Forall no_reset_in_action (threads cfg') /\
  Z.of_N (semaphore (limiter cfg')) - tally is_acquire (concat (threads cfg'))
    + (tally is_wait_release (concat (threads cfg'))
       - tally is_wait_acquire (concat (threads cfg')))
  = Z.of_N (semaphore (limiter cfg)) - tally is_acquire (concat (threads cfg))
    + (tally is_wait_release (concat (threads cfg))
       - tally is_wait_acquire (concat (threads cfg))).
Proof.
  intros Hc HF. destruct c as [i|d|i|i]; cbn [sched]; try discriminate.
  - destruct (threads cfg !! i) as [[|a rest]|] eqn:Hth; try discriminate.
    destruct (act (clock cfg) a (limiter cfg)) as [l|] eqn:Hact; [|discriminate].
    intros [= <-]. cbn [limiter threads].
    pose proof (Forall_lookup_1 _ _ _ _ HF Hth) as Hno.
    unfold no_reset_in_action in Hno. inversion Hno as [|? ? Ha Hrest]; subst.
    split; [apply Forall_insert; [exact HF | exact Hrest]|].
    rewrite !(tally_pool_step _ _ _ _ _ Hth).
    rewrite (act_semaphore _ _ _ _ Hact Ha). lia.
  - destruct (_ && _); [|discriminate]. intros [= <-]. cbn. split; [exact HF | lia].
  - unfold timer_expire. destruct (timers (limiter cfg) !! i) as [t|]; [|discriminate].
    destruct (due (clock cfg) t); [|discriminate].
    intros [= <-]. cbn. split; [exact HF | lia].
Qed.

Lemma run_tokens cs : forall cfg cfg',
  Forall (fun c => is_run_reset c = false) cs ->
  Forall no_reset_in_action (threads cfg) ->
  run cs cfg = Some cfg' ->
  Z.of_N (semaphore (limiter cfg')) - tally is_acquire (concat (threads cfg'))
    + (tally is_wait_release (concat (threads cfg'))
       - tally is_wait_acquire (concat (threads cfg')))
  = Z.of_N (semaphore (limiter cfg)) - tally is_acquire (concat (threads cfg))
    + (tally is_wait_release (concat (threads cfg))
       - tally is_wait_acquire (concat (threads cfg))).
Proof.
  induction cs as [|c cs IH]; intros cfg cfg' Hcs HF; cbn [run].
  - now intros [= <-].
  - inversion Hcs as [|? ? Hc Hcs']; subst.
    destruct (sched c cfg) as [cfg1|] eqn:Hs; [|discriminate].
    destruct (sched_tokens _ _ _ Hc HF Hs) as [HF1 Heq].
    intros H. rewrite (IH _ _ Hcs' HF1 H). exact Heq.
Qed.

(** The regions still to run only get fewer. *)
Lemma run_tally_le (p : action -> bool) cs : forall cfg cfg',
  run cs cfg = Some cfg' ->
  tally p (concat (threads cfg')) <= tally p (concat (threads cfg)).
Proof.
  induction cs as [|c cs IH]; intros cfg cfg'; cbn [run].
  - intros [= <-]. lia.
  - destruct (sched c cfg) as [cfg1|] eqn:Hc; [|discriminate].
    intros H. specialize (IH _ _ H).
    destruct (sched_threads _ _ _ Hc) as [Heq|(i & a & rest & _ & Hi & _ & Heq)];
      rewrite Heq in IH; [exact IH|].
    rewrite (tally_pool_step _ _ _ _ _ Hi) in IH. destruct (p a); lia.
Qed.

(** X9. The first epoch, under any schedule. Threads make [call] and [wait]
    invocations on a freshly made limiter of capacity [C], and no timer has
    run [_reset] yet. Then the tokens left, the calls that have got their
    token and the [wait] invocations that hold one add up to [C]; so at most
    [C] calls are admitted, and the calls in flight are at most the calls
    admitted, hence at most [C]. *)
Theorem first_epoch_admits_at_most_capacity C E now self0 iss cs cfg :
  __init__ C E = Some self0 ->
  Forall (Forall (fun i => is_reset_in i = false)) iss ->
  Forall (fun c => is_run_reset c = false) cs ->
  run cs (boot now self0 iss) = Some cfg ->
  Z.of_N (semaphore (limiter cfg)) + admitted iss cfg + probing cfg = C /\
  0 <= probing cfg /\
  0 <= admitted iss cfg <= C /\
  0 <= current (limiter cfg) <= admitted iss cfg.
Proof.
  intros Hinit Hiss Hcs Hrun. unfold admitted, probing.
  assert (HF : Forall no_reset_in_action (threads (boot now self0 iss))).
  { cbn [boot threads]. apply Forall_fmap.
    eapply Forall_impl; [exact Hiss|]. intros ivs. apply program_no_reset_in. }
  pose proof (run_tokens _ _ _ Hcs HF Hrun) as Htok.
  pose proof (run_current _ _ _ Hrun) as Hcur.
  pose proof (run_tally_le is_finally _ _ _ Hrun) as Hfin.
  pose proof (run_tally_le is_acquire _ _ _ Hrun) as Hacq.
  pose proof (run_in_order _ _ _ Hrun (boot_in_order now self0 iss)) as Hord.
  apply pool_in_order_tallies in Hord as (Hae & Hef & Hw).
  cbn [boot limiter threads] in Htok, Hcur, Hfin, Hacq.
  rewrite (tally_program is_acquire is_call) in Htok, Hacq
    by (intros [[|]| |]; reflexivity).
  rewrite (tally_program is_enter is_call) in Hcur by (intros [[|]| |]; reflexivity).
  rewrite (tally_program is_finally is_call) in Hcur, Hfin
    by (intros [[|]| |]; reflexivity).
  rewrite (tally_program is_wait_release (fun i => match i with DoWait => true | _ => false end))
    in Htok by (intros [[|]| |]; reflexivity).
  rewrite (tally_program is_wait_acquire (fun i => match i with DoWait => true | _ => false end))
    in Htok by (intros [[|]| |]; reflexivity).
  destruct (init_fields _ _ _ Hinit) as (_ & Hsem & H0 & _).
  lia.
Qed.

Lemma first_epoch_admits_at_most_capacity_witness :
  exists cfg,
    run [Step 0; Step 1; Step 0; Step 1; Step 2]
        (boot 0 limiter_2_10 [[DoCall false]; [DoWait]; [DoCall true]])
    = Some cfg /\
    Z.of_N (semaphore (limiter cfg))
    + admitted [[DoCall false]; [DoWait]; [DoCall true]] cfg + probing cfg = 2 /\
    0 <= probing cfg /\
    0 <= admitted [[DoCall false]; [DoWait]; [DoCall true]] cfg <= 2 /\
    0 <= current (limiter cfg)
      <= admitted [[DoCall false]; [DoWait]; [DoCall true]] cfg.
Proof.
  eexists. split; [vm_compute; reflexivity|].
  apply (first_epoch_admits_at_most_capacity 2 10 0 limiter_2_10
           [[DoCall false]; [DoWait]; [DoCall true]]
           [Step 0; Step 1; Step 0; Step 1; Step 2]).
  - reflexivity.
  - repeat constructor.
  - repeat constructor.
  - vm_compute; reflexivity.
Defined.

(** ** The timer of the epoch *)

(** The [finally] block starts a timer exactly when [resetter] refers to
    none. *)
Lemma call_finally_timers now ok self :
  match resetter self with
  | None =>
      timers (call_finally now ok self)
      = timers self ++ [mkTimer (seconds_per_epoch self) now Waiting] /\
      resetter (call_finally now ok self) = Some (length (timers self))
  | Some i =>
      timers (call_finally now ok self) = timers self /\
      resetter (call_finally now ok self) = Some i
  end.
Proof.
  unfold call_finally. destruct (resetter self) eqn:Hres, ok; cbn; rewrite ?Hres; auto.
Qed.

(** X10. The epochs of a lone caller. After at least one and at most [C]
    calls made at time [now] on a fresh limiter of capacity [C], the reset
    at [now + seconds_per_epoch] gives all [C] tokens back, whatever number
    of them was used; and the next epoch is timed from the next call: that
    call, at a time [t] after the reset, starts a new timer that is due at
    [t + seconds_per_epoch], the only one asleep. *)
Theorem next_epoch_starts_at_next_call {Env} C E now self0
    (reqs : list (request Env)) env :
  0 < C ->
  __init__ C E = Some self0 ->
  (1 <= length reqs)%nat ->
  Z.of_nat (length reqs) <= C ->
  exists rs env1 self,
    single_calls now reqs env self0 = Some (rs, env1, self) /\
    forall t method args,
      now + Z.max 0 E <= t ->
      Z.of_N (semaphore (advance t self)) = C /\
      exists r env2 self',
        call t method args env1 (advance t self) = Some (r, env2, self') /\
        Z.of_N (semaphore self') = C - 1 /\
        timers self' = [mkTimer E now Finished; mkTimer E t Waiting] /\
        resetter self' = Some 1%nat /\
        pending self' = [1%nat].
Proof.
  intros HC Hinit Hlen1 HlenC.
  destruct (init_in_first_epoch C E now self0 Hinit) as [_ Hin0].
  destruct (single_calls_in_first_epoch C E now reqs 0 env self0 Hin0)
    as (rs & env1 & self & Hrun & _ & Hin); [cbn; lia|].
  cbn [Nat.add] in Hin. exists rs, env1, self. split; [exact Hrun|].
  intros t method args Ht.
  destruct (length reqs) as [|n] eqn:Hn; [lia|].
  destruct (advance_in_first_epoch C E now n t self Hin) as [_ Hafter].
  specialize (Hafter Ht). split; [lia|].
  destruct Hin as (HE & Hsem & Hcur & Hlim & Hres & Htim).
  assert (Hs : sleepers_are (fun i => i = 0%nat) self).
  { intros i ti. rewrite Htim. destruct i as [|i]; [|discriminate].
    intros [= <-]. split; [reflexivity | auto]. }
  assert (Hk : timers self !! 0%nat = Some (mkTimer E now Waiting)) by now rewrite Htim.
  assert (Hdue : due t (mkTimer E now Waiting) = true).
  { unfold due, deadline. cbn. apply Z.leb_le. lia. }
  assert (Hadv : advance t self
                 = _reset (set_timers [mkTimer E now Finished] self)).
  { rewrite (advance_only t _ _ _ Hs Hk), (timer_fire_due _ _ _ _ Hk Hdue).
    now rewrite Htim. }
  assert (Htok : has_token (advance t self)) by (unfold has_token; lia).
  rewrite (call_admitted _ _ _ _ _ Htok).
  eexists _, _, _. split; [reflexivity|].
  set (ok := returned (fst (apply_method method args env1))).
  set (inside := call_enter (set_semaphore (N.pred (semaphore (advance t self)))
                               (advance t self))).
  assert (Hin_res : resetter inside = None) by (unfold inside; now rewrite Hadv).
  assert (Hin_tim : timers inside = [mkTimer E now Finished])
    by (unfold inside; now rewrite Hadv).
  assert (Hin_spe : seconds_per_epoch inside = E)
    by (unfold inside; now rewrite Hadv).
  pose proof (call_finally_timers t ok inside) as Hf. rewrite Hin_res in Hf.
  destruct Hf as [Hft Hfr]. rewrite Hin_tim, Hin_spe in Hft. rewrite Hin_tim in Hfr.
  rewrite call_finally_semaphore.
  split; [unfold inside; cbn [call_enter set_current set_semaphore semaphore];
          unfold has_token in Htok; lia|].
  split; [exact Hft|]. split; [exact Hfr|].
  unfold pending, timers_where. now rewrite Hft.
Qed.

Lemma next_epoch_starts_at_next_call_witness :
  exists rs env1 self,
    single_calls 0 two_requests tt limiter_2_10 = Some (rs, env1, self) /\
    Z.of_N (semaphore (advance 25 self)) = 2 /\
    exists r env2 self',
      call 25 None [] env1 (advance 25 self) = Some (r, env2, self') /\
      Z.of_N (semaphore self') = 2 - 1 /\
      timers self' = [mkTimer 10 0 Finished; mkTimer 10 25 Waiting] /\
      resetter self' = Some 1%nat /\
      pending self' = [1%nat].
Proof.
  destruct (next_epoch_starts_at_next_call 2 10 0 limiter_2_10 two_requests tt
              ltac:(lia) eq_refl ltac:(cbn; lia) ltac:(cbn; lia))
    as (rs & env1 & self & Hrun & H).
  exists rs, env1, self. split; [exact Hrun|].
  apply (H 25 None []). cbn. lia.
Defined.

(** ** A limiter without capacity *)

Lemma sched_shut c cfg cfg' :
  sched c cfg = Some cfg' ->
  shut (limiter cfg) -> Forall not_begun (threads cfg) ->
  shut (limiter cfg') /\ Forall not_begun (threads cfg') /\
  tally is_acquire (concat (threads cfg')) = tally is_acquire (concat (threads cfg)) /\
  tally is_wait_acquire (concat (threads cfg'))
  = tally is_wait_acquire (concat (threads cfg)) /\
  tally is_wait_release (concat (threads cfg'))
  = tally is_wait_release (concat (threads cfg)).
Proof.
  intros Hs (Hsem & Hlim & Hcur & Hcalls) HF.
  destruct c as [i|d|i|i]; cbn [sched] in Hs.
  - destruct (threads cfg !! i) as [[|a rest]|] eqn:Hth; try discriminate.
    destruct (act (clock cfg) a (limiter cfg)) as [l|] eqn:Hact; [|discriminate].
    injection Hs as <-. cbn [limiter threads].
    destruct (Forall_lookup_1 _ _ _ _ HF Hth) as [ivs Hivs].
    destruct ivs as [|[raises| |seconds] ivs]; try discriminate;
      rewrite program_cons in Hivs; cbn in Hivs; injection Hivs as -> ->.
    + cbn in Hact. now rewrite (call_acquire_empty _ Hsem) in Hact.
    + cbn in Hact. unfold wait_acquire in Hact.
      now rewrite (call_acquire_empty _ Hsem) in Hact.
    + cbn in Hact. injection Hact as <-.
      destruct (reset_in_fields (clock cfg) seconds (limiter cfg)) as (H1 & H2 & H3 & H4).
      split; [unfold shut; rewrite H1, H2, H3, H4; auto|].
      split; [apply Forall_insert; [exact HF | now exists ivs]|].
      rewrite !(tally_pool_step _ _ _ _ _ Hth). cbn. repeat split; lia.
  - destruct (_ && _); [|discriminate]. injection Hs as <-. cbn.
    unfold shut. auto 10.
  - unfold timer_expire in Hs.
    destruct (timers (limiter cfg) !! i) as [t|]; [|discriminate].
    destruct (due (clock cfg) t); [|discriminate].
    injection Hs as <-. cbn [limiter threads]. unfold shut. cbn. auto 10.
  - unfold timer_run in Hs.
    destruct (timers (limiter cfg) !! i) as [t|]; [|discriminate].
    destruct (is_running t); [|discriminate].
    injection Hs as <-. cbn [limiter threads].
    split; [|auto].
    pose proof (reset_semaphore
                  (set_timers (<[i := with_status Finished t]> (timers (limiter cfg)))
                              (limiter cfg))) as Hr.
    change (limit (set_timers ?a ?s)) with (limit s) in Hr.
    change (current (set_timers ?a ?s)) with (current s) in Hr.
    rewrite Hlim, Hcur in Hr.
    unfold shut. split; [lia|]. repeat split; assumption.
Qed.

Lemma run_shut cs : forall cfg cfg',
  run cs cfg = Some cfg' ->
  shut (limiter cfg) -> Forall not_begun (threads cfg) ->
  shut (limiter cfg') /\
  tally is_acquire (concat (threads cfg')) = tally is_acquire (concat (threads cfg)) /\
  tally is_wait_acquire (concat (threads cfg'))
  = tally is_wait_acquire (concat (threads cfg)) /\
  tally is_wait_release (concat (threads cfg'))
  = tally is_wait_release (concat (threads cfg)).
Proof.
  induction cs as [|c cs IH]; intros cfg cfg'; cbn [run].
  - intros [= <-]. auto.
  - destruct (sched c cfg) as [cfg1|] eqn:Hc; [|discriminate].
    intros H Hs HF.
    destruct (sched_shut _ _ _ Hc Hs HF) as (Hs1 & HF1 & Ha & Hwa & Hwr).
    destruct (IH _ _ H Hs1 HF1) as (Hs' & Ha' & Hwa' & Hwr').
    split; [exact Hs'|]. rewrite Ha', Hwa', Hwr'. auto.
Qed.

(** X11. The bounds of the capacity. A negative [calls_per_epoch] makes the
    constructor fail. With [calls_per_epoch = 0] the limiter is made, and
    then no call and no [wait] ever gets through, whatever the threads do
    and whenever the timers run, [reset_in] included: [_reset] releases
    [limit - current = 0] tokens. The semaphore stays empty, [calls] stays
    [(0, 0)], no call gets a token and no [wait] holds one. *)
Theorem capacity_zero_admits_nothing C E now self0 iss cs cfg :
  (C < 0 -> __init__ C E = None) /\
  (C = 0 ->
   __init__ C E = Some self0 ->
   run cs (boot now self0 iss) = Some cfg ->
   semaphore (limiter cfg) = 0%N /\
   calls (limiter cfg) = (0, 0) /\
   current (limiter cfg) = 0 /\
   admitted iss cfg = 0 /\
   probing cfg = 0).
Proof.
  split.
  - intros HC. unfold __init__, Semaphore.__init__.
    destruct (C <? 0) eqn:E0; [reflexivity | lia].
  - intros -> Hinit Hrun.
    assert (Hs0 : shut self0).
    { unfold __init__ in Hinit. cbn in Hinit. injection Hinit as <-.
      unfold shut. cbn. auto. }
    assert (HF : Forall not_begun (threads (boot now self0 iss))).
    { cbn [boot threads]. apply Forall_fmap, Forall_true. intros ivs. now exists ivs. }
    destruct (run_shut _ _ _ Hrun Hs0 HF) as ((Hsem & Hlim & Hcur & Hcalls) & Ha & Hwa & Hwr).
    cbn [boot threads] in Ha, Hwa, Hwr.
    rewrite (tally_program is_acquire is_call) in Ha by (intros [[|]| |]; reflexivity).
    rewrite (tally_program is_wait_release (fun i => match i with DoWait => true | _ => false end))
      in Hwr by (intros [[|]| |]; reflexivity).
    rewrite (tally_program is_wait_acquire (fun i => match i with DoWait => true | _ => false end))
      in Hwa by (intros [[|]| |]; reflexivity).
    unfold admitted, probing. repeat split; try assumption; lia.
Qed.

Lemma capacity_zero_admits_nothing_witness :
  __init__ (-1) 10 = None /\
  exists cfg,
    run [Step 1; Expire 0; RunReset 0; Elapse 5]
        (boot 0 limiter_0_10 [[DoCall false]; [DoResetIn 0; DoWait]])
    = Some cfg /\
    semaphore (limiter cfg) = 0%N /\
    calls (limiter cfg) = (0, 0) /\
    current (limiter cfg) = 0 /\
    admitted [[DoCall false]; [DoResetIn 0; DoWait]] cfg = 0 /\
    probing cfg = 0.
Proof.
  split.
  - apply (proj1 (capacity_zero_admits_nothing (-1) 10 0 limiter_0_10 [] []
                    (mkConfig 0 limiter_0_10 []))). lia.
  - eexists. split; [vm_compute; reflexivity|].
    apply (proj2 (capacity_zero_admits_nothing 0 10 0 limiter_0_10
                    [[DoCall false]; [DoResetIn 0; DoWait]]
                    [Step 1; Expire 0; RunReset 0; Elapse 5] _)).
    + reflexivity.
    + reflexivity.
    + vm_compute; reflexivity.
Defined.

(** ** Timers that are not delayed, over whole schedules *)

Lemma expire_run_is_fire now i l l1 l2 :
  timer_expire now i l = Some l1 -> timer_run i l1 = Some l2 ->
  l2 = timer_fire now i l.
Proof. intros H1 H2. unfold timer_fire. now rewrite H1, H2. Qed.

Lemma run_prompt_tidy n : forall cs cfg cfg',
  (length cs <= n)%nat ->
  prompt cs = true ->
  run cs cfg = Some cfg' ->
  tidy (limiter cfg) -> tidy (limiter cfg').
Proof.
  induction n as [|n IH]; intros cs cfg cfg' Hlen Hp Hrun Ht.
  - destruct cs; [|cbn in Hlen; lia]. cbn in Hrun. now injection Hrun as <-.
  - destruct cs as [|c cs]; [cbn in Hrun; now injection Hrun as <-|].
    cbn [length] in Hlen. cbn [run] in Hrun.
    destruct (sched c cfg) as [cfg1|] eqn:Hc; [|discriminate].
    destruct c as [i|d|i|i].
    + cbn [prompt] in Hp. apply (IH cs cfg1 cfg'); [lia | exact Hp | exact Hrun|].
      cbn [sched] in Hc.
      destruct (threads cfg !! i) as [[|a rest]|]; try discriminate.
      destruct (act (clock cfg) a (limiter cfg)) as [l|] eqn:Hact; [|discriminate].
      injection Hc as <-. cbn [limiter]. eapply act_tidy; eauto.
    + cbn [prompt] in Hp. apply (IH cs cfg1 cfg'); [lia | exact Hp | exact Hrun|].
      cbn [sched] in Hc. destruct (_ && _); [|discriminate].
      injection Hc as <-. exact Ht.
    + cbn [prompt] in Hp. destruct cs as [|[| |j|j] cs]; try discriminate.
      apply andb_prop in Hp as [Hij Hp]. apply Nat.eqb_eq in Hij as <-.
      cbn [run] in Hrun.
      destruct (sched (RunReset i) cfg1) as [cfg2|] eqn:Hc2; [|discriminate].
      cbn [length] in Hlen.
      apply (IH cs cfg2 cfg'); [lia | exact Hp | exact Hrun|].
      cbn [sched] in Hc, Hc2.
      destruct (timer_expire (clock cfg) i (limiter cfg)) as [l1|] eqn:H1; [|discriminate].
      injection Hc as <-. cbn [limiter] in Hc2.
      destruct (timer_run i l1) as [l2|] eqn:H2; [|discriminate].
      injection Hc2 as <-. cbn [limiter].
      rewrite (expire_run_is_fire _ _ _ _ _ H1 H2). now apply timer_fire_tidy.
    + discriminate Hp.
Qed.

(** X12. One timer at a time, when the timers are not delayed. Threads make
    [call], [wait] and [reset_in] invocations on a freshly made limiter, in
    any interleaving in which every timer runs [_reset] as soon as its sleep
    has timed out. Then at every moment at most one timer is asleep, it is
    the one [resetter] refers to, and no timer is between its time-out and
    its [_reset]. *)
Theorem undelayed_schedule_one_pending C E now self0 iss cs cfg :
  __init__ C E = Some self0 ->
  prompt cs = true ->
  run cs (boot now self0 iss) = Some cfg ->
  (length (pending (limiter cfg)) <= 1)%nat /\
  (forall i, In i (pending (limiter cfg)) -> resetter (limiter cfg) = Some i) /\
  (forall i t, timers (limiter cfg) !! i = Some t -> is_running t = false).
Proof.
  intros Hinit Hp Hrun.
  assert (Ht : tidy (limiter cfg)).
  { apply (run_prompt_tidy (length cs) cs _ _ (le_n _) Hp Hrun).
    cbn [boot limiter]. eapply init_tidy, Hinit. }
  split; [now apply tidy_pending|]. split.
  - intros i Hi. unfold pending, timers_where in Hi.
    apply List.filter_In in Hi as [_ Hi].
    destruct (timers (limiter cfg) !! i) as [t|] eqn:Hti; [|discriminate].
    now apply (Ht i t Hti).
  - intros i t Hti. now apply (Ht i t Hti).
Qed.

Lemma undelayed_schedule_one_pending_witness :
  exists cfg,
    run [Step 0; Step 0; Step 0; Elapse 10; Expire 0; RunReset 0; Step 2;
         Step 2; Step 2; Step 1]
        (boot 0 limiter_1_10 four_threads)
    = Some cfg /\
    pending (limiter cfg) = [2%nat] /\
    (length (pending (limiter cfg)) <= 1)%nat.
Proof.
  eexists. split; [vm_compute; reflexivity|]. split; [reflexivity|].
  apply (undelayed_schedule_one_pending 1 10 0 limiter_1_10 four_threads
           [Step 0; Step 0; Step 0; Elapse 10; Expire 0; RunReset 0; Step 2;
            Step 2; Step 2; Step 1]).
  - reflexivity.
  - reflexivity.
  - vm_compute; reflexivity.
Defined.

(** The two [reset_in] calls of [reset_in_twice_undelayed] on a limiter on
    which one call has completed: [reset_in(20)] at time 3 and
    [reset_in(30)] at time 5. *)
Lemma reset_in_twice_undelayed_witness :
  pending (reset_in 5 30 (advance 5 (reset_in 3 20 one_call_made))) = [2%nat] /\
  advance 34 (reset_in 5 30 (advance 5 (reset_in 3 20 one_call_made)))
  = reset_in 5 30 (advance 5 (reset_in 3 20 one_call_made)) /\
  pending (advance 35 (reset_in 5 30 (advance 5 (reset_in 3 20 one_call_made)))) = [] /\
  timers (advance 35 (reset_in 5 30 (advance 5 (reset_in 3 20 one_call_made)))) !! 1%nat
  = Some (mkTimer 20 3 Cancelled).
Proof.
  assert (Ht : tidy one_call_made).
  { intros [|[|i]] t Hi; inversion Hi; subst; cbn; split; reflexivity. }
  destruct (reset_in_twice_undelayed one_call_made 3 20 5 30 Ht ltac:(cbn; lia))
    as (_ & _ & Hp & _ & _ & Hadv).
  split; [exact Hp|]. split; [apply (proj1 (Hadv 34)); cbn; lia|].
  destruct (proj2 (Hadv 35) ltac:(cbn; lia)) as (Hq & Hc & _).
  split; [exact Hq | exact Hc].
Defined.

(** ** Any number of members *)

Lemma fewest_tokens_positive l ls :
  (0 < fewest_tokens l ls)%N <-> Forall has_token (l :: ls).
Proof.
  revert l. induction ls as [|l' ls IH]; intros l; cbn [fewest_tokens].
  - split; [intros H; repeat constructor; exact H | intros H; now inversion H].
  - rewrite Forall_cons, <- IH. unfold has_token. lia.
Qed.

Lemma fewest_tokens_counted now ok l ls :
  fewest_tokens (counted now ok l) (map (counted now ok) ls)
  = N.pred (fewest_tokens l ls).
Proof.
  revert l. induction ls as [|l' ls IH]; intros l; cbn [fewest_tokens map].
  - apply counted_semaphore.
  - rewrite IH, counted_semaphore. lia.
Qed.

Lemma multi_admitted_fewest {Env} now (reqs : list (request Env)) :
  forall env l ls,
    multi_admitted now reqs env (l :: ls)
    = Nat.min (length reqs) (N.to_nat (fewest_tokens l ls)).
Proof.
  induction reqs as [|[method args] reqs IH]; intros env l ls; [reflexivity|].
  cbn [multi_admitted length].
  destruct (tokens_or_blocked (l :: ls)) as [Htok|Hb].
  - rewrite (multi_call_admitted _ _ _ _ _ Htok). cbn [map].
    rewrite IH, fewest_tokens_counted.
    apply fewest_tokens_positive in Htok. lia.
  - rewrite (multi_call_blocked _ _ _ _ _ Hb).
    destruct (N.eq_0_gt_0_cases (fewest_tokens l ls)) as [->|Hpos]; [lia|].
    apply fewest_tokens_positive in Hpos. exfalso.
    apply Exists_exists in Hb as (m & Hm & Hz).
    rewrite Forall_forall in Hpos. specialize (Hpos m Hm).
    unfold has_token in Hpos. lia.
Qed.

Lemma fewest_tokens_fresh c cs :
  0 <= smallest (fst c) (map fst cs) ->
  Z.of_N (fewest_tokens (fresh c) (map fresh cs)) = smallest (fst c) (map fst cs).
Proof.
  revert c. induction cs as [|c' cs IH]; intros c; cbn [fewest_tokens smallest map].
  - cbn. lia.
  - intros H. cbn [fresh semaphore].
    destruct (Z.le_gt_cases 0 (smallest (fst c') (map fst cs))) as [Hle|Hgt].
    + specialize (IH c' Hle). cbn [map] in IH. lia.
    + lia.
Qed.

Lemma smallest_nonneg c cs :
  Forall (fun l : Z * Z => 0 <= fst l) (c :: cs) -> 0 <= smallest (fst c) (map fst cs).
Proof.
  revert c. induction cs as [|c' cs IH]; intros c H; cbn [smallest map].
  - now inversion H.
  - inversion H as [|? ? Hc Hcs]; subst. specialize (IH c' Hcs). lia.
Qed.

(** X13. A composite limiter over any number of members, at least one, and
    one caller that makes its calls one after the other: the number of calls
    served before one blocks is the smallest of the members' capacities (or
    the number of requests, if that is less). Without members no call ever
    blocks. *)
Theorem multi_admits_smallest_capacity c cs (ms : MultiRateLimiter.obj) :
  MultiRateLimiter.__init__ (c :: cs) = Some ms ->
  forall Env now (reqs : list (request Env)) env,
    multi_admitted now reqs env ms
    = Nat.min (length reqs) (Z.to_nat (smallest (fst c) (map fst cs))) /\
    multi_admitted now reqs env [] = length reqs.
Proof.
  intros Hinit Env now reqs env.
  destruct (multi_init_Some _ _ Hinit) as [-> HF]. split.
  - cbn [map]. rewrite multi_admitted_fewest.
    pose proof (fewest_tokens_fresh c cs (smallest_nonneg c cs HF)). lia.
  - clear. revert env. induction reqs as [|[method args] reqs IH]; intros env;
      [reflexivity|].
    cbn [multi_admitted length].
    rewrite (multi_call_admitted now method args env [] (Forall_nil_2 _)).
    now rewrite IH.
Qed.

Lemma multi_admits_smallest_capacity_witness :
  multi_admitted 0 three_requests tt (map fresh [(10, 10); (2, 1); (500, 600)]) = 2%nat.
Proof.
  exact (proj1 (multi_admits_smallest_capacity (10, 10) [(2, 1); (500, 600)] _ eq_refl
                  unit 0 three_requests tt)).
Defined.

(** ** The counters at any moment *)

Lemma run_counters_order cs : forall cfg cfg',
  run cs cfg = Some cfg' ->
  0 <= _successful_calls (limiter cfg) <= _total_calls (limiter cfg) ->
  0 <= _successful_calls (limiter cfg') <= _total_calls (limiter cfg').
Proof.
  induction cs as [|c cs IH]; intros cfg cfg'; cbn [run].
  - now intros [= <-].
  - destruct (sched c cfg) as [cfg1|] eqn:Hc; [|discriminate].
    intros H H0. apply (IH _ _ H).
    destruct (sched_threads _ _ _ Hc) as [Heq|(i & a & rest & _ & Hi & Hact & Heq)].
    + apply sched_counters in Hc as [H1 H2]. rewrite Heq in H1, H2. lia.
    + apply act_counters in Hact as [H1 H2]. rewrite H1, H2.
      destruct a as [| |[|]| | |]; cbn; lia.
Qed.

(** X14. The counters at any moment of any schedule, not only once all
    invocations have completed: [_total_calls] is the number of [finally]
    blocks that have run, [_successful_calls] the number of those that
    followed a method that did not raise, and
    [0 <= _successful_calls <= _total_calls]. Neither [wait], nor
    [reset_in], nor a reset changes them. *)
Theorem calls_at_any_moment C E now self0 iss cs cfg :
  __init__ C E = Some self0 ->
  run cs (boot now self0 iss) = Some cfg ->
  calls (limiter cfg)
  = (count_where is_passing_call iss - tally is_finally_ok (concat (threads cfg)),
     count_where is_call iss - tally is_finally (concat (threads cfg))) /\
  0 <= _successful_calls (limiter cfg) <= _total_calls (limiter cfg).
Proof.
  intros Hinit Hrun.
  destruct (init_fields _ _ _ Hinit) as (_ & _ & _ & _ & Ht0 & Hs0).
  split.
  - apply run_counters in Hrun as [Htot Hsuc].
    cbn [boot limiter threads] in Htot, Hsuc.
    rewrite (tally_program is_finally is_call) in Htot
      by (intros [[|]| |]; reflexivity).
    rewrite (tally_program is_finally_ok is_passing_call) in Hsuc
      by (intros [[|]| |]; reflexivity).
    unfold calls. f_equal; lia.
  - apply (run_counters_order _ _ _ Hrun). cbn [boot limiter]. lia.
Qed.

Lemma calls_at_any_moment_witness :
  exists cfg,
    run [Step 0; Step 0; Step 1; Step 1; Step 1]
        (boot 0 limiter_2_10 [[DoCall false; DoCall false]; [DoCall true]])
    = Some cfg /\
    calls (limiter cfg) = (0, 1).
Proof.
  eexists. split; [vm_compute; reflexivity|].
  rewrite (proj1 (calls_at_any_moment 2 10 0 limiter_2_10
             [[DoCall false; DoCall false]; [DoCall true]]
             [Step 0; Step 0; Step 1; Step 1; Step 1] _ eq_refl
             ltac:(vm_compute; reflexivity))).
  reflexivity.
Defined.
